(** * Decaf448 over Ed448-Goldilocks

    A shallow embedding of [fe.go] (field elements and extended Edwards
    points) and [decaf.go] (encode, decode and the one-way map), followed by
    the properties of the written specification that the code meets or
    misses.

    A Go [big.Int] is an unbounded signed integer and is modelled as [Z];
    byte slices are [list byte]; a Go [panic] is the [Panic] constructor of
    [result].  Methods that overwrite their receiver and return it become
    functions returning the new value of the receiver; [Decode], whose
    effect on the receiver matters, threads the receiver explicitly. *)

From Stdlib Require Import ZArith List Lia Bool String Strings.Byte.
From Stdlib Require Import Zpow_facts Zcong Zdiv Morphisms Setoid.
Import ListNotations.
Open Scope Z_scope.

(** ** Panics *)

Inductive result (A : Type) : Type :=
| Ok (a : A)
| Panic (msg : string).

Arguments Ok {A} a.
Arguments Panic {A} msg.

Definition bind {A B : Type} (r : result A) (k : A -> result B) : result B :=
  match r with
  | Ok a => k a
  | Panic msg => Panic msg
  end.

Notation "'let*' x ':=' c 'in' k" := (bind c (fun x => k))
  (at level 10, x pattern, c at level 100, k at level 200).

(** ** The parts of [math/big] and [crypto/subtle] the package calls *)

Module BigInt.

Definition byte_to_Z (b : byte) : Z := Z.of_N (Byte.to_N b).

Definition byte_of_Z (z : Z) : byte :=
  match Byte.of_N (Z.to_N z) with
  | Some b => b
  | None => x00
  end.

(** [SetBytes]: the slice read as a big-endian unsigned integer. *)
Definition SetBytes (buf : list byte) : Z :=
  fold_left (fun acc b => acc * 256 + byte_to_Z b) buf 0.

(** Base-256 digits, least significant first, without trailing zeros. *)
Fixpoint le_digits (fuel : nat) (x : Z) : list byte :=
  match fuel with
  | O => []
  | S fuel' =>
      if x =? 0 then []
      else byte_of_Z (x mod 256) :: le_digits fuel' (x / 256)
  end.

(** [Bytes]: the absolute value as a big-endian slice of minimal length
    (empty for zero). *)
Definition Bytes (x : Z) : list byte :=
  rev (le_digits (S (Z.to_nat (Z.log2 (Z.abs x)))) (Z.abs x)).

(** Exactly [n] base-256 digits, least significant first. *)
Fixpoint le_fixed (n : nat) (x : Z) : list byte :=
  match n with
  | O => []
  | S n' => byte_of_Z (x mod 256) :: le_fixed n' (x / 256)
  end.

(** [FillBytes]: the absolute value, big-endian, zero-extended to the
    length of the buffer; panics when the value does not fit. *)
Definition FillBytes (n : nat) (x : Z) : result (list byte) :=
  if Z.abs x <? 256 ^ Z.of_nat n
  then Ok (rev (le_fixed n (Z.abs x)))
  else Panic "math/big: buffer too small to fit value".

(** [Mod]: Euclidean modulus, the result lies in [[0, |y|)].  Go panics
    on a zero divisor; the package only ever divides by [curveOrder]. *)
Definition Mod (x y : Z) : Z := x mod Z.abs y.

(** [Exp z x y m]: the new value of the receiver [z].  With a non-zero
    modulus and a negative exponent the base is inverted first, and the
    receiver is left as it was when no inverse exists.  The sign of the
    result is then taken from the base itself: after the inversion a
    negative base with an odd exponent has its (non-zero) power
    subtracted from the modulus once more. *)
Definition Exp (z x y m : Z) : Z :=
  if m =? 0 then (if y <=? 0 then 1 else x ^ y)
  else if y <? 0 then
    (if Z.gcd x m =? 1
     then
       let r := Zpow_mod (Z.invmod x (Z.abs m)) (- y) (Z.abs m) in
       if (x <? 0) && Z.odd y && negb (r =? 0) then Z.abs m - r else r
     else z)
  else Zpow_mod x y (Z.abs m).

(** The value of a slice read least significant byte first (used to state
    what [SetBytes] and [FillBytes] compute). *)
Fixpoint le_value (l : list byte) : Z :=
  match l with
  | [] => 0
  | b :: tl => byte_to_Z b + 256 * le_value tl
  end.

Definition Cmp (x y : Z) : Z :=
  match x ?= y with
  | Lt => -1
  | Eq => 0
  | Gt => 1
  end.

Definition Sign (x : Z) : Z := Z.sgn x.

(** [BitLen]: the length of the absolute value in bits, 0 for 0. *)
Definition BitLen (x : Z) : nat :=
  if Z.abs x =? 0 then O else S (Z.to_nat (Z.log2 (Z.abs x))).

(** [Bit]: bit [i] of [x], in two's complement when [x] is negative. *)
Definition Bit (x : Z) (i : nat) : Z :=
  if Z.testbit x (Z.of_nat i) then 1 else 0.

(** [subtle.ConstantTimeCompare]: 1 when the slices have equal length and
    contents, 0 otherwise. *)
Definition ConstantTimeCompare (x y : list byte) : Z :=
  if list_eq_dec Byte.byte_eq_dec x y then 1 else 0.

End BigInt.

(** ** fe.go: helpers *)

Definition upd {A : Type} (i : nat) (a : A) (l : list A) : list A :=
  firstn i l ++ match skipn i l with
                | [] => []
                | _ :: tl => a :: tl
                end.

(** One iteration of the loop of [reverse]: exchange [b[i]] and [b[opp]]. *)
Definition swap_at (i : nat) (b : list byte) : list byte :=
  let opp := (List.length b - 1 - i)%nat in
  upd opp (nth i b x00) (upd i (nth opp b x00) b).

(** [reverse_from k b] runs the iterations [i = k-1, k-2, ..., 0]. *)
Fixpoint reverse_from (k : nat) (b : list byte) : list byte :=
  match k with
  | O => b
  | S i => reverse_from i (swap_at i b)
  end.

Definition reverse (b : list byte) : list byte :=
  reverse_from (List.length b / 2)%nat b.

(** ** fe.go: field elements *)

Record Element : Type := mkElement { int : Z }.

(** p = 2^448 - 2^224 - 1 *)
Definition fieldOrder : Z :=
  726838724295606890549323807888004534353641360687318060281490199180612328166730772686396383698676545930088884461843637361053498018365439.

Definition curveOrder : Element := mkElement fieldOrder.

Definition zero : Element := mkElement 0.
Definition one : Element := mkElement 1.
Definition two : Element := mkElement 2.

(** (p-3)/4 = 2^446 - 2^222 - 1 *)
Definition pMinus3Div4 : Element :=
  mkElement 0x3fffffffffffffffffffffffffffffffffffffffffffffffffffffffbfffffffffffffffffffffffffffffffffffffffffffffffffffffff.

Module Element.

Definition reduce (x md : Z) : Element := mkElement (BigInt.Mod x md).

Definition SetInt (u : Z) : Element := mkElement u.

(** [Set] ([Set] is a keyword here). *)
Definition Set_ (u : Element) : Element := SetInt (int u).

Definition Zero : Element := zero.

Definition One : Element := one.

Definition SetBytesBig (u : list byte) : Element :=
  mkElement (BigInt.SetBytes u).

Definition SetBytesLittle (u : list byte) : Element :=
  let v := u in
  mkElement (BigInt.SetBytes (reverse v)).

Definition Bytes (e : Element) : list byte := BigInt.Bytes (int e).

Definition Add (u v : Element) : Element :=
  reduce (int u + int v) (int curveOrder).

Definition Subtract (u v : Element) : Element :=
  reduce (int u - int v) (int curveOrder).

Definition Multiply (u v : Element) : Element :=
  reduce (int u * int v) (int curveOrder).

Definition Square (u : Element) : Element :=
  reduce (int u * int u) (int curveOrder).

Definition Negate (u : Element) : Element :=
  reduce (- int u) (int curveOrder).

(** [Invert] and [Exp] write the result of [big.Int.Exp] into the
    receiver [e], whose old value survives when no result is produced. *)
Definition Invert (e u exp : Element) : Element :=
  mkElement (BigInt.Exp (int e) (int u) (int exp) (int curveOrder)).

Definition Exp (e u v : Element) : Element :=
  mkElement (BigInt.Exp (int e) (int u) (int v) (int curveOrder)).

Definition expPMinus3mod4 (e : Element) : Element := Exp e e pMinus3Div4.

Definition Compare (e u : Element) : Z := BigInt.Cmp (int e) (int u).

Definition IsZero (e : Element) : Z :=
  if BigInt.Sign (int e) =? 0 then 1 else 0.

Definition IsNegative (e : Element) : Z :=
  if BigInt.Sign (int e) =? -1 then 1 else 0.

Definition IsEqualCT (e u : Element) : result Z :=
  let* su := BigInt.FillBytes 56 (int e) in
  let* sv := BigInt.FillBytes 56 (int u) in
  Ok (BigInt.ConstantTimeCompare su sv).

Definition SelectCT (u v : Element) (cond : Z) : Element :=
  if cond =? 1 then Set_ u else Set_ v.

Definition SwapCT (e u : Element) (condition : bool) : Element :=
  let v := if condition then Set_ u else Set_ e in
  Set_ v.

Definition AbsoluteCT (u : Element) : Element :=
  let minU := Negate u in
  SelectCT minU u (IsNegative u).

Definition SqrtRatio (u v : Element) : result (Z * Element) :=
  let r := Multiply u v in
  let r := expPMinus3mod4 r in
  let r := Multiply r u in
  let check := Square r in
  let check := Multiply v check in
  let* wasSquare := IsEqualCT check u in
  let e := AbsoluteCT r in
  Ok (wasSquare, e).

End Element.

Definition minusOne : Element := Element.Subtract zero one.

(** ** decaf.go: curve constants *)

Definition oneMinusD : Element := mkElement 39082.
Definition oneMinusTwoD : Element := mkElement 78163.
Definition sqrtMinusD : Element :=
  mkElement 98944233647732219769177004876929019128417576295529901074099889598043702116001257856802131563896515373927712232092845883226922417596214.
Definition invSqrtMinusD : Element :=
  mkElement 315019913931389607337177038330951043522456072897266928557328499619017160722351061360252776265186336876723201881398623946864393857820716.
(** D = -39081 *)
Definition D : Element :=
  mkElement 726838724295606890549323807888004534353641360687318060281490199180612328166730772686396383698676545930088884461843637361053498018326358.

(** ** fe.go: points in extended coordinates *)

(** The fields [X], [Y], [T], [Z] of the Go struct; [Z] names the integers
    here, so the four projections carry a prefix. *)
Record Point : Type := mkPoint { pX : Element; pY : Element; pT : Element; pZ : Element }.

(** q = l = 2^446 - 13818066809895115352007386748515426880336692474882178609894547503885 *)
Definition orderPrime : Z :=
  181709681073901722637330951972001133588410340171829515070372549795146003961539585716195755291692375963310293709091662304773755859649779.

Definition groupOrder : Element := mkElement orderPrime.

Module Point.

Definition pZero : Point :=
  mkPoint (Element.SetInt 0) (Element.SetInt 1) (Element.SetInt 0) (Element.SetInt 1).

Definition Set_ (q : Point) : Point :=
  mkPoint (Element.Set_ (pX q)) (Element.Set_ (pY q))
          (Element.Set_ (pT q)) (Element.Set_ (pZ q)).

Definition Negate (q : Point) : Point :=
  mkPoint (Element.Negate (pX q)) (Element.Set_ (pY q))
          (Element.Negate (pT q)) (Element.Set_ (pZ q)).

Definition IsEqual (p q : Point) : result Z :=
  let f0 := Element.Multiply (pX p) (pY q) in
  let f1 := Element.Multiply (pY p) (pX q) in
  let* res := Element.IsEqualCT f0 f1 in
  let f0 := Element.Multiply (pY p) (pY q) in
  let f1 := Element.Multiply (pX p) (pX q) in
  let* res' := Element.IsEqualCT f0 f1 in
  let res := Z.lor res res' in
  Ok res.

Definition IsInfinity (p : Point) : result Z := IsEqual p pZero.

Definition Copy (p : Point) : Point :=
  mkPoint (Element.Set_ (pX p)) (Element.Set_ (pY p))
          (Element.Set_ (pT p)) (Element.Set_ (pZ p)).

(** [p.Double()]: the new value of [p]. *)
Definition Double (p : Point) : Point :=
  let a := Element.Square (pX p) in
  let b := Element.Square (pY p) in
  let c := Element.Square (pZ p) in
  let c := Element.Multiply two c in
  let d := Element.Set_ a in
  let e := Element.Add (pX p) (pY p) in
  let e := Element.Square e in
  let e := Element.Subtract e a in
  let e := Element.Subtract e b in
  let g := Element.Add d b in
  let f := Element.Subtract g c in
  let h := Element.Subtract d b in
  mkPoint (Element.Multiply e f) (Element.Multiply g h)
          (Element.Multiply e h) (Element.Multiply f g).

(** [p.Add(q)]: the new value of [p].  Every read of [p] and [q] precedes
    the four writes, so [q] may alias [p]. *)
Definition Add (p q : Point) : Point :=
  let a := Element.Multiply (pX p) (pX q) in
  let b := Element.Multiply (pY p) (pY q) in
  let c := Element.Multiply (pT q) (pT p) in
  let c := Element.Multiply c D in
  let d := Element.Multiply (pZ p) (pZ q) in
  let ee := Element.Add (pX p) (pY p) in
  let ff := Element.Add (pX q) (pY q) in
  let e := Element.Multiply ee ff in
  let e := Element.Subtract e a in
  let e := Element.Subtract e b in
  let f := Element.Subtract d c in
  let g := Element.Add d c in
  let h := Element.Subtract b a in
  mkPoint (Element.Multiply e f) (Element.Multiply g h)
          (Element.Multiply e h) (Element.Multiply f g).

Definition Subtract (p q : Point) : Point :=
  let minusq := Negate q in
  Add p minusq.

(** The loop of [ScalarMult] for [i = n-1, ..., 0] on the two accumulators
    [(r0, r1)]. *)
Fixpoint ladder (n : nat) (s : Element) (r0 r1 : Point) : Point * Point :=
  match n with
  | O => (r0, r1)
  | S i =>
      if BigInt.Bit (int s) i =? 0
      then
        let r1 := Add r1 r0 in
        let r0 := Double r0 in
        ladder i s r0 r1
      else
        let r0 := Add r0 r1 in
        let r1 := Double r1 in
        ladder i s r0 r1
  end.

(** [p.ScalarMult(s, q)]: the new value of [p]. *)
Definition ScalarMult (s : Element) (q : Point) : result Point :=
  if BigInt.Cmp (int groupOrder) (int s) <=? 0 then Panic "scalar out of order" else
  let r0 := pZero in
  let r1 := Copy q in
  let r0 := fst (ladder (BigInt.BitLen (int s)) s r0 r1) in
  Ok (Set_ r0).

End Point.

(** ** decaf.go: group elements *)

Record DecafElement : Type := mkDecafElement { p : Point }.

Definition NewGroupElement : DecafElement :=
  mkDecafElement (mkPoint zero zero zero zero).

(** Code that may panic and that writes to its receiver: the receiver is
    the state, and a panic leaves it as the writes so far have made it. *)
Definition recv (A : Type) : Type := DecafElement -> result A * DecafElement.

Definition ret {A : Type} (a : A) : recv A := fun e => (Ok a, e).

Definition panic {A : Type} (msg : string) : recv A := fun e => (Panic msg, e).

Definition lift {A : Type} (r : result A) : recv A := fun e => (r, e).

Definition write (f : Point -> Point) : recv unit :=
  fun e => (Ok tt, mkDecafElement (f (p e))).

Definition bind_recv {A B : Type} (c : recv A) (k : A -> recv B) : recv B :=
  fun e =>
    match c e with
    | (Ok a, e') => k a e'
    | (Panic msg, e') => (Panic msg, e')
    end.

Notation "'let!' x ':=' c 'in' k" := (bind_recv c (fun x => k))
  (at level 10, x pattern, c at level 100, k at level 200).

Definition set_X (x : Element) (q : Point) : Point :=
  mkPoint (Element.Set_ x) (pY q) (pT q) (pZ q).
Definition set_Y (y : Element) (q : Point) : Point :=
  mkPoint (pX q) (Element.Set_ y) (pT q) (pZ q).
Definition set_T (t : Element) (q : Point) : Point :=
  mkPoint (pX q) (pY q) (Element.Set_ t) (pZ q).
Definition set_Z (z : Element) (q : Point) : Point :=
  mkPoint (pX q) (pY q) (pT q) (Element.Set_ z).

Module Decaf.

Definition Encode (e : DecafElement) : result (list byte) :=
  let u1 := Element.Add (pX (p e)) (pT (p e)) in
  let u2 := Element.Subtract (pX (p e)) (pT (p e)) in
  let u1 := Element.Multiply u1 u2 in
  let u2 := Element.Square (pX (p e)) in
  let u2 := Element.Multiply u2 oneMinusD in
  let u2 := Element.Multiply u2 u1 in
  let* (_, invsqrt) := Element.SqrtRatio one u2 in
  let ratio := Element.Multiply invsqrt u1 in
  let ratio := Element.Multiply ratio sqrtMinusD in
  let ratio := Element.AbsoluteCT ratio in
  let u2 := Element.Multiply invSqrtMinusD ratio in
  let u2 := Element.Multiply u2 (pZ (p e)) in
  let u2 := Element.Subtract u2 (pT (p e)) in
  let s := Element.Multiply oneMinusD invsqrt in
  let s := Element.Multiply s (pX (p e)) in
  let s := Element.Multiply s u2 in
  let s := Element.AbsoluteCT s in
  Ok (reverse (BigInt.Bytes (int s))).

(** [e.Decode(input)] as a computation on the receiver [e]. *)
Definition Decode (input : list byte) : recv unit :=
  if negb (Nat.eqb (List.length input) 56) then panic "invalid length" else
  let s := Element.SetBytesLittle input in
  if negb (Element.Compare curveOrder s =? 1) then panic "out of order" else
  if Element.IsNegative s =? 1 then panic "negative" else
  let four := Element.SetInt 4 in
  let ss := Element.Square s in
  let u1 := Element.Add ss one in
  let u2 := Element.Multiply u1 u1 in
  let u22 := Element.Multiply four D in
  let u22 := Element.Multiply u22 ss in
  let u2 := Element.Subtract u2 u22 in
  let u22 := Element.Multiply u1 u1 in
  let u22 := Element.Multiply u2 u22 in
  let! (wasSquare, invsqrt) := lift (Element.SqrtRatio one u22) in
  let u3 := Element.Multiply two s in
  let u3 := Element.Multiply u3 invsqrt in
  let u3 := Element.Multiply u3 u1 in
  let u3 := Element.Multiply u3 sqrtMinusD in
  let u3 := Element.AbsoluteCT u3 in
  let x := Element.Multiply u3 invsqrt in
  let x := Element.Multiply x u2 in
  let x := Element.Multiply x invSqrtMinusD in
  let y := Element.Subtract one ss in
  let y := Element.Multiply y invsqrt in
  let y := Element.Multiply y u1 in
  let t := Element.Multiply x y in
  if negb (wasSquare =? 1) then panic "not square" else
  let! _ := write (set_X x) in
  let! _ := write (set_Y y) in
  let! _ := write (set_T t) in
  let! _ := write (set_Z one) in
  ret tt.

(** The locals of [_map] that the returned point is built from. *)
Record mapLocals : Type := mkMapLocals {
  m_r : Element; m_vPrime : Element; m_sgn : Element; m_s : Element;
  m_w0 : Element; m_w1 : Element; m_w2 : Element; m_w3 : Element }.

Definition _map_locals (input : list byte) : result mapLocals :=
  let r := Element.SetBytesBig input in
  let t := Element.reduce (int r) (int curveOrder) in
  let r := Element.Square t in
  let r := Element.Negate r in
  let rMinOne := Element.Subtract r one in
  let u0 := Element.Multiply D rMinOne in
  let u01 := Element.Add u0 one in
  let u0r := Element.Subtract u0 r in
  let u1 := Element.Multiply u01 u0r in
  let rPlusOne := Element.Add r one in
  let u1 := Element.Multiply u1 rPlusOne in
  let* (wasSquare, v) := Element.SqrtRatio oneMinusTwoD u1 in
  let vPrime := Element.SelectCT v (Element.Multiply t v) wasSquare in
  let sgn := Element.SelectCT one minusOne wasSquare in
  let s := Element.Multiply vPrime rPlusOne in
  let w0 := Element.Multiply two (Element.AbsoluteCT s) in
  let w1 := Element.Square s in
  let w1 := Element.Add s one in
  let w2 := Element.Square s in
  let w2 := Element.Subtract w2 one in
  let w3 := Element.Multiply vPrime s in
  let w3 := Element.Multiply w3 rMinOne in
  let w3 := Element.Multiply w3 oneMinusTwoD in
  let w3 := Element.Add w3 sgn in
  Ok (mkMapLocals r vPrime sgn s w0 w1 w2 w3).

Definition _map (input : list byte) : result Point :=
  let* l := _map_locals input in
  Ok (mkPoint (Element.Multiply (m_w0 l) (m_w3 l))
              (Element.Multiply (m_w2 l) (m_w1 l))
              (Element.Multiply (m_w0 l) (m_w2 l))
              (Element.Multiply (m_w1 l) (m_w3 l))).

(** [e.OneWayMap(input)]: the new value of [e].  The two slice
    expressions panic when the reversed copy is shorter than they ask. *)
Definition OneWayMap (e : DecafElement) (input : list byte) : result DecafElement :=
  let v := reverse input in
  if (List.length v <? 56)%nat then Panic "slice bounds out of range" else
  let* p1 := _map (firstn 56 v) in
  if (List.length v <? 112)%nat then Panic "slice bounds out of range" else
  let* p2 := _map (firstn 56 (skipn 56 v)) in
  Ok (mkDecafElement (Point.Set_ (Point.Add p1 p2))).

End Decaf.

(** ** Notions the specification is stated with *)

(** Congruence modulo the field prime. *)
Definition eqp : Z -> Z -> Prop := eqm fieldOrder.

(** A stored value that is canonical: it lies in [[0, p)]. *)
Definition canonical (e : Element) : Prop := 0 <= int e < fieldOrder.

(** The two cross-product identities of the equality test. *)
Definition cross_xy (P Q : Point) : Prop :=
  eqp (int (pX P) * int (pY Q)) (int (pY P) * int (pX Q)).

Definition cross_yx (P Q : Point) : Prop :=
  eqp (int (pY P) * int (pY Q)) (int (pX P) * int (pX Q)).

(** A Go [int] that is 1 or 0. *)
Definition bit (b : bool) : Z := if b then 1 else 0.

(** The curve of [fe.go], [x^2 + y^2 = 1 + D x^2 y^2] with [D = -39081], at
    the affine point [(X/Z, Y/Z)], cleared of denominators. *)
Definition on_curve (P : Point) : Prop :=
  eqp (int (pX P) * int (pX P) * (int (pZ P) * int (pZ P))
       + int (pY P) * int (pY P) * (int (pZ P) * int (pZ P)))
      (int (pZ P) * int (pZ P) * (int (pZ P) * int (pZ P))
       + int D * (int (pX P) * int (pX P)) * (int (pY P) * int (pY P))).

(** The invariant of extended coordinates, [T*Z = X*Y]. *)
Definition coherent (P : Point) : Prop :=
  eqp (int (pT P) * int (pZ P)) (int (pX P) * int (pY P)).

(** The curve in extended coordinates: [X^2 + Y^2 = Z^2 + D T^2] together
    with [T*Z = X*Y]. *)
Definition extended (P : Point) : Prop :=
  eqp (int (pX P) * int (pX P) + int (pY P) * int (pY P))
      (int (pZ P) * int (pZ P) + int D * (int (pT P) * int (pT P))) /\
  coherent P.

(** Four canonical coordinates. *)
Definition canonical_point (P : Point) : Prop :=
  canonical (pX P) /\ canonical (pY P) /\ canonical (pT P) /\ canonical (pZ P).

(** A valid point: on the curve, with [T*Z = X*Y], and [Z] non-zero in the
    field, that is, a unit modulo [p]. *)
Definition valid (P : Point) : Prop :=
  on_curve P /\
  eqp (int (pT P) * int (pZ P)) (int (pX P) * int (pY P)) /\
  Z.gcd (int (pZ P)) fieldOrder = 1.

(** Equality as section 3 of the specification words it: both
    cross-product identities. *)
Definition both_cross (P Q : Point) : Prop := cross_xy P Q /\ cross_yx P Q.

(** Projective equality: the two representations denote the same point
    [(X/Z, Y/Z)], with the same [T/Z]. *)
Definition same_point (P Q : Point) : Prop :=
  eqp (int (pX P) * int (pZ Q)) (int (pX Q) * int (pZ P)) /\
  eqp (int (pY P) * int (pZ Q)) (int (pY Q) * int (pZ P)) /\
  eqp (int (pT P) * int (pZ Q)) (int (pT Q) * int (pZ P)).

(** [Q] is [P] with every coordinate multiplied by [k]. *)
Definition scaled (k : Z) (P Q : Point) : Prop :=
  eqp (int (pX Q)) (k * int (pX P)) /\
  eqp (int (pY Q)) (k * int (pY P)) /\
  eqp (int (pT Q)) (k * int (pT P)) /\
  eqp (int (pZ Q)) (k * int (pZ P)).

(** The curve as section 3 of the specification writes it,
    [-x^2 + y^2 = 1 - 39081 x^2 y^2], at [(X/Z, Y/Z)], cleared of
    denominators. *)
Definition on_spec_curve (P : Point) : Prop :=
  eqp (- (int (pX P) * int (pX P) * (int (pZ P) * int (pZ P)))
       + int (pY P) * int (pY P) * (int (pZ P) * int (pZ P)))
      (int (pZ P) * int (pZ P) * (int (pZ P) * int (pZ P))
       + int D * (int (pX P) * int (pX P)) * (int (pY P) * int (pY P))).

(** The sign convention and the square-root-ratio primitive in the words of
    the specification (section 4.1), to compare [Element.SqrtRatio] with. *)
Module Spec.

Definition IsNegativeCT (a : Z) : bool := Z.odd (a mod fieldOrder).

Definition AbsoluteCT (a : Z) : Z :=
  if IsNegativeCT a then (- a) mod fieldOrder else a mod fieldOrder.

Definition SqrtRatioM1 (u v : Z) : bool * Z :=
  let r := (u * Zpow_mod (u * v) ((fieldOrder - 3) / 4) fieldOrder) mod fieldOrder in
  let check := (v * (r * r)) mod fieldOrder in
  (check =? u mod fieldOrder, AbsoluteCT r).

End Spec.

(** ** Inputs used below *)

(** The all-zero 56-byte string. *)
Definition zeros56 : list byte := repeat x00 56.

(** The all-0xFF 56-byte string. *)
Definition ones56 : list byte := repeat xff 56.

(** The little-endian 56-byte string of the integer 5. *)
Definition five56 : list byte := x05 :: repeat x00 55.

(** A 56-byte half whose big-endian value is 2, as [_map] receives it. *)
Definition half2 : list byte := repeat x00 55 ++ [x02].

(** A point off the neutral element, with [Z] different from 1: the double
    of the point that the 56-byte string of the integer 8 decodes to. *)
Definition samplePoint : Point :=
  mkPoint
    (mkElement 697393798813628987127394709163211351021002297428628615834130078444992020665096076331903300228925890971501621566439476487085239401617827)
    (mkElement 7453665515968635663844849469031362540573102385877530474543570945345166134566478119943849888207605681289606821888584657198755195421167)
    (mkElement 661756259282332637346651734477402554469350476067703125560925887107799450454370092591610803033592111067839629019851325450227346510659534)
    (mkElement 596376003083972484325578304015505189368992508634144350892748071385934232576904458504923430433298370676637503792353105908502863604329306).

(** A point of the curve of the specification, with x = 2. *)
Definition twistedPoint : Point :=
  mkPoint
    (mkElement 2)
    (mkElement 427973944878262238182010004792464352898946810736481818696898561737014943553248055614005279516088383902453794418641708107752600695230541)
    (mkElement 129109165460917585814696201696924171444252260785645577112306924293417558939765338541614175333500221874818704375439778854451703372095643)
    (mkElement 1).

(** The locals that [_map] computes on [half2]. *)
Definition half2_locals : Decaf.mapLocals :=
  Decaf.mkMapLocals
    (mkElement 726838724295606890549323807888004534353641360687318060281490199180612328166730772686396383698676545930088884461843637361053498018365435)
    (mkElement 642930635303120514555830352461195240598704325857035843819095921265408573838457528367812330438718182551364588692291423915522953551419518)
    (mkElement 1)
    (mkElement 251724266977459127980480366280427881264811104490846649387182833745611262984819732955752159779875090136172887308656640336591633400837763)
    (mkElement 503448533954918255960960732560855762529622208981693298774365667491222525969639465911504319559750180272345774617313280673183266801675526)
    (mkElement 251724266977459127980480366280427881264811104490846649387182833745611262984819732955752159779875090136172887308656640336591633400837764)
    (mkElement 606230712941488207865603227784156855771969696735198085488430454780928195081277220254521559724584058038017930705348101855425872568110006)
    (mkElement 23771070071293028463476083954515979210297708269420168331803100051669940320171683215383808072782675518121668585724744152968716474020691).

(** * Properties *)

(** ** Byte slices *)

Section Bytes.

Import BigInt.

Lemma byte_to_Z_range (b : byte) : 0 <= byte_to_Z b < 256.
Proof.
  unfold byte_to_Z. pose proof (Byte.to_N_bounded b). lia.
Qed.

Lemma byte_to_of_Z (z : Z) : 0 <= z < 256 -> byte_to_Z (byte_of_Z z) = z.
Proof.
  intros Hz. unfold byte_to_Z, byte_of_Z.
  destruct (Byte.of_N (Z.to_N z)) as [b|] eqn:E.
  - apply Byte.to_of_N in E. rewrite E. lia.
  - apply Byte.of_N_None_iff in E. lia.
Qed.

Lemma le_value_range (l : list byte) :
  0 <= le_value l < 256 ^ Z.of_nat (List.length l).
Proof.
  induction l as [|b tl IH].
  - simpl. lia.
  - cbn [le_value List.length]. rewrite Nat2Z.inj_succ, Z.pow_succ_r by lia.
    pose proof (byte_to_Z_range b). lia.
Qed.

Lemma SetBytes_app (l : list byte) (b : byte) :
  SetBytes (l ++ [b]) = SetBytes l * 256 + byte_to_Z b.
Proof. unfold SetBytes. rewrite fold_left_app. reflexivity. Qed.

Lemma SetBytes_rev (l : list byte) : SetBytes (rev l) = le_value l.
Proof.
  induction l as [|b tl IH].
  - reflexivity.
  - cbn [rev le_value]. rewrite SetBytes_app, IH. lia.
Qed.

Lemma SetBytes_range (l : list byte) :
  0 <= SetBytes l < 256 ^ Z.of_nat (List.length l).
Proof.
  pose proof (le_value_range (rev l)) as H.
  now rewrite <- SetBytes_rev, rev_involutive, length_rev in H.
Qed.

Lemma length_le_fixed (n : nat) (x : Z) : List.length (le_fixed n x) = n.
Proof. revert x. induction n; intros; simpl; auto. Qed.

Lemma le_value_le_fixed (n : nat) (x : Z) :
  le_value (le_fixed n x) = x mod 256 ^ Z.of_nat n.
Proof.
  revert x. induction n as [|n IH]; intros x.
  - simpl. now rewrite Z.mod_1_r.
  - cbn [le_fixed le_value]. rewrite IH, Nat2Z.inj_succ, Z.pow_succ_r by lia.
    rewrite byte_to_of_Z by (apply Z.mod_pos_bound; lia).
    rewrite Z.rem_mul_r by lia. reflexivity.
Qed.

Lemma le_fixed_inj (n : nat) (x y : Z) :
  0 <= x < 256 ^ Z.of_nat n -> 0 <= y < 256 ^ Z.of_nat n ->
  le_fixed n x = le_fixed n y -> x = y.
Proof.
  intros Hx Hy E. apply (f_equal le_value) in E.
  rewrite !le_value_le_fixed in E.
  now rewrite !Z.mod_small in E.
Qed.

(** A filled buffer read back as a big-endian integer is the value. *)
Lemma FillBytes_SetBytes (n : nat) (x : Z) (buf : list byte) :
  FillBytes n x = Ok buf -> SetBytes buf = Z.abs x /\ List.length buf = n.
Proof.
  unfold FillBytes. destruct (Z.ltb_spec (Z.abs x) (256 ^ Z.of_nat n)); [|discriminate].
  intros [= <-]. rewrite SetBytes_rev, le_value_le_fixed, length_rev, length_le_fixed.
  split; [apply Z.mod_small; lia | reflexivity].
Qed.

Lemma ConstantTimeCompare_eq (x y : list byte) :
  ConstantTimeCompare x y = 1 <-> x = y.
Proof.
  unfold ConstantTimeCompare. destruct (list_eq_dec _ x y); split; intros; congruence.
Qed.

Lemma ConstantTimeCompare_bit (x y : list byte) :
  ConstantTimeCompare x y = 0 \/ ConstantTimeCompare x y = 1.
Proof. unfold ConstantTimeCompare. destruct (list_eq_dec _ x y); auto. Qed.

Lemma le_value_le_digits (fuel : nat) (x : Z) :
  0 <= x < 2 ^ Z.of_nat fuel -> le_value (le_digits fuel x) = x.
Proof.
  revert x. induction fuel as [|fuel IH]; intros x Hx.
  - simpl in *. lia.
  - cbn [le_digits]. destruct (Z.eqb_spec x 0) as [->|Hne]; [reflexivity|].
    cbn [le_value]. rewrite byte_to_of_Z by (apply Z.mod_pos_bound; lia).
    rewrite Nat2Z.inj_succ, Z.pow_succ_r in Hx by lia.
    rewrite IH.
    + pose proof (Z.div_mod x 256). lia.
    + split; [apply Z.div_pos; lia|].
      apply Z.div_lt_upper_bound; lia.
Qed.

(** The fuel of [Bytes] suffices: the slice reads back as the absolute
    value. *)
Lemma Bytes_SetBytes (x : Z) : SetBytes (Bytes x) = Z.abs x.
Proof.
  unfold Bytes. rewrite SetBytes_rev. apply le_value_le_digits.
  split; [apply Z.abs_nonneg|].
  rewrite Nat2Z.inj_succ, Z2Nat.id by apply Z.log2_nonneg.
  destruct (Z.eq_dec (Z.abs x) 0) as [->|Hne]; [reflexivity|].
  apply Z.log2_spec. pose proof (Z.abs_nonneg x). lia.
Qed.

End Bytes.

(** ** [reverse] reverses *)

Section Reverse.

Lemma upd_nil {A : Type} (i : nat) (a : A) : upd i a [] = [].
Proof. unfold upd. now rewrite firstn_nil, skipn_nil. Qed.

Lemma upd_zero {A : Type} (a x : A) (l : list A) : upd 0 a (x :: l) = a :: l.
Proof. reflexivity. Qed.

Lemma upd_succ {A : Type} (i : nat) (a x : A) (l : list A) :
  upd (S i) a (x :: l) = x :: upd i a l.
Proof. reflexivity. Qed.

Lemma length_upd {A : Type} (i : nat) (a : A) (l : list A) :
  List.length (upd i a l) = List.length l.
Proof.
  revert i. induction l as [|x l IH]; intros i.
  - now rewrite upd_nil.
  - destruct i; [reflexivity|]. rewrite upd_succ. simpl. now rewrite IH.
Qed.

Lemma nth_upd {A : Type} (i j : nat) (a d : A) (l : list A) :
  (i < List.length l)%nat ->
  nth j (upd i a l) d = if (j =? i)%nat then a else nth j l d.
Proof.
  revert i j. induction l as [|x l IH]; intros i j Hi; [simpl in Hi; lia|].
  destruct i.
  - rewrite upd_zero. destruct j; reflexivity.
  - rewrite upd_succ. destruct j; [reflexivity|].
    simpl in Hi. cbn [nth]. rewrite IH by lia. reflexivity.
Qed.

Lemma length_swap_at (i : nat) (b : list byte) :
  List.length (swap_at i b) = List.length b.
Proof. unfold swap_at. now rewrite !length_upd. Qed.

Lemma nth_swap_at (i j : nat) (b : list byte) :
  (i < List.length b)%nat ->
  nth j (swap_at i b) x00 =
    if (j =? List.length b - 1 - i)%nat then nth i b x00
    else if (j =? i)%nat then nth (List.length b - 1 - i) b x00
    else nth j b x00.
Proof.
  intros Hi. unfold swap_at.
  rewrite nth_upd by (rewrite length_upd; lia).
  rewrite nth_upd by lia. reflexivity.
Qed.

Lemma length_reverse_from (k : nat) (b : list byte) :
  List.length (reverse_from k b) = List.length b.
Proof.
  revert b. induction k as [|k IH]; intros b; [reflexivity|].
  cbn [reverse_from]. now rewrite IH, length_swap_at.
Qed.

Lemma nth_reverse_from (k j : nat) (b : list byte) :
  (2 * k <= List.length b)%nat -> (j < List.length b)%nat ->
  nth j (reverse_from k b) x00 =
    if ((j <? k) || (List.length b - k <=? j))%nat
    then nth (List.length b - 1 - j) b x00
    else nth j b x00.
Proof.
  revert b. induction k as [|k IH]; intros b Hk Hj.
  - cbn [reverse_from].
    destruct (Nat.ltb_spec j 0); [lia|].
    destruct (Nat.leb_spec (List.length b - 0) j); [lia|]. reflexivity.
  - cbn [reverse_from]. rewrite IH by (rewrite length_swap_at; lia).
    rewrite length_swap_at, !nth_swap_at by lia.
    destruct (Nat.ltb_spec j k), (Nat.ltb_spec j (S k)),
      (Nat.leb_spec (List.length b - k) j), (Nat.leb_spec (List.length b - S k) j);
      cbn [orb]; try lia;
      repeat match goal with
        | |- context [(?a =? ?c)%nat] => destruct (Nat.eqb_spec a c); try lia
        end;
      try reflexivity; f_equal; lia.
Qed.

Lemma length_reverse (b : list byte) : List.length (reverse b) = List.length b.
Proof. apply length_reverse_from. Qed.

Lemma reverse_rev (b : list byte) : reverse b = rev b.
Proof.
  apply (nth_ext _ _ x00 x00).
  - now rewrite length_reverse, length_rev.
  - rewrite length_reverse. intros n Hn. unfold reverse.
    pose proof (Nat.div_mod_eq (List.length b) 2) as Hd.
    pose proof (Nat.mod_upper_bound (List.length b) 2 ltac:(lia)) as Hm.
    rewrite nth_reverse_from, rev_nth by lia.
    destruct (Nat.ltb_spec n (List.length b / 2)),
      (Nat.leb_spec (List.length b - List.length b / 2) n);
      cbn [orb]; f_equal; lia.
Qed.

End Reverse.

(** ** Field arithmetic *)

Lemma fieldOrder_pos : 0 < fieldOrder.
Proof. reflexivity. Qed.

Lemma fieldOrder_eq : fieldOrder = 2 ^ 448 - 2 ^ 224 - 1.
Proof. reflexivity. Qed.

Lemma pMinus3Div4_eq : int pMinus3Div4 = (fieldOrder - 3) / 4.
Proof. reflexivity. Qed.

Lemma D_eq : int D = fieldOrder - 39081.
Proof. reflexivity. Qed.

Lemma int_reduce (x : Z) :
  int (Element.reduce x (int curveOrder)) = x mod fieldOrder.
Proof. reflexivity. Qed.

Lemma int_Add (u v : Element) :
  int (Element.Add u v) = (int u + int v) mod fieldOrder.
Proof. reflexivity. Qed.

Lemma int_Subtract (u v : Element) :
  int (Element.Subtract u v) = (int u - int v) mod fieldOrder.
Proof. reflexivity. Qed.

Lemma int_Multiply (u v : Element) :
  int (Element.Multiply u v) = (int u * int v) mod fieldOrder.
Proof. reflexivity. Qed.

Lemma int_Square (u : Element) :
  int (Element.Square u) = (int u * int u) mod fieldOrder.
Proof. reflexivity. Qed.

Lemma int_Negate (u : Element) :
  int (Element.Negate u) = (- int u) mod fieldOrder.
Proof. reflexivity. Qed.

Lemma int_Set (u : Element) : int (Element.Set_ u) = int u.
Proof. reflexivity. Qed.

Lemma mod_canonical (x : Z) : 0 <= x mod fieldOrder < fieldOrder.
Proof. apply Z.mod_pos_bound, fieldOrder_pos. Qed.

#[global] Instance eqp_equiv : Equivalence eqp.
Proof. exact (eqm_setoid fieldOrder). Qed.

#[global] Instance eqp_add : Proper (eqp ==> eqp ==> eqp) Z.add.
Proof. exact (Zplus_eqm fieldOrder). Qed.

#[global] Instance eqp_sub : Proper (eqp ==> eqp ==> eqp) Z.sub.
Proof. exact (Zminus_eqm fieldOrder). Qed.

#[global] Instance eqp_mul : Proper (eqp ==> eqp ==> eqp) Z.mul.
Proof. exact (Zmult_eqm fieldOrder). Qed.

#[global] Instance eqp_opp : Proper (eqp ==> eqp) Z.opp.
Proof. exact (Zopp_eqm fieldOrder). Qed.

Lemma mod_eqp (a : Z) : eqp (a mod fieldOrder) a.
Proof. exact (Zmod_eqm fieldOrder a). Qed.

Lemma eqp_mod (a b : Z) : eqp a b <-> a mod fieldOrder = b mod fieldOrder.
Proof. reflexivity. Qed.


(** ** Equality of field elements and of points *)

Lemma canonical_fits (x : Z) :
  0 <= x < fieldOrder -> (Z.abs x <? 256 ^ Z.of_nat 56) = true.
Proof.
  intros H. apply Z.ltb_lt. rewrite Z.abs_eq by lia.
  change (256 ^ Z.of_nat 56) with (2 ^ 448). rewrite fieldOrder_eq in H. lia.
Qed.

Lemma IsEqualCT_canonical (a b : Element) :
  canonical a -> canonical b ->
  Element.IsEqualCT a b = Ok (if int a =? int b then 1 else 0).
Proof.
  unfold canonical. intros Ha Hb.
  unfold Element.IsEqualCT, BigInt.FillBytes.
  rewrite (canonical_fits _ Ha), (canonical_fits _ Hb). cbn [bind].
  rewrite !Z.abs_eq by lia. f_equal.
  unfold BigInt.ConstantTimeCompare.
  destruct (Z.eqb_spec (int a) (int b)) as [E|E], (list_eq_dec _ _ _) as [L|L];
    try reflexivity.
  - rewrite E in L. congruence.
  - exfalso. apply E. apply rev_inj in L.
    apply (le_fixed_inj 56); trivial;
      change (256 ^ Z.of_nat 56) with (2 ^ 448); rewrite fieldOrder_eq in *; lia.
Qed.

Lemma lor_bit (a b : bool) : Z.lor (bit a) (bit b) = bit (a || b).
Proof. destruct a, b; reflexivity. Qed.

Lemma IsEqual_bits (P Q : Point) :
  Point.IsEqual P Q =
    Ok (bit (((int (pX P) * int (pY Q)) mod fieldOrder =? (int (pY P) * int (pX Q)) mod fieldOrder)
             || ((int (pY P) * int (pY Q)) mod fieldOrder =? (int (pX P) * int (pX Q)) mod fieldOrder))).
Proof.
  unfold Point.IsEqual.
  rewrite !IsEqualCT_canonical by (unfold canonical; rewrite int_Multiply; apply mod_canonical).
  cbn [bind]. rewrite !int_Multiply. f_equal. apply (lor_bit _ _).
Qed.

Lemma IsEqual_cross_xy (P Q : Point) : cross_xy P Q -> Point.IsEqual P Q = Ok 1.
Proof.
  intros H. rewrite IsEqual_bits. apply eqp_mod in H. rewrite H, Z.eqb_refl. reflexivity.
Qed.

Lemma IsEqual_total (P Q : Point) :
  Point.IsEqual P Q = Ok 1 \/ Point.IsEqual P Q = Ok 0.
Proof.
  rewrite IsEqual_bits.
  match goal with |- context [bit ?b] => destruct b end; cbn [bit]; auto.
Qed.

(** ** The group law on valid points *)

Lemma eq_eqp (a b : Z) : a = b -> eqp a b.
Proof. intros ->. reflexivity. Qed.

Lemma eqp_Add (u v : Element) : eqp (int (Element.Add u v)) (int u + int v).
Proof. rewrite int_Add. apply mod_eqp. Qed.

Lemma eqp_Subtract (u v : Element) : eqp (int (Element.Subtract u v)) (int u - int v).
Proof. rewrite int_Subtract. apply mod_eqp. Qed.

Lemma eqp_Multiply (u v : Element) : eqp (int (Element.Multiply u v)) (int u * int v).
Proof. rewrite int_Multiply. apply mod_eqp. Qed.

Lemma eqp_Square (u : Element) : eqp (int (Element.Square u)) (int u * int u).
Proof. rewrite int_Square. apply mod_eqp. Qed.

Lemma eqp_Negate (u : Element) : eqp (int (Element.Negate u)) (- int u).
Proof. rewrite int_Negate. apply mod_eqp. Qed.

(** Push [int] through the field operations, up to congruence. *)
Ltac field_ops :=
  repeat first
    [ rewrite eqp_Multiply | rewrite eqp_Square | rewrite eqp_Add
    | rewrite eqp_Subtract | rewrite eqp_Negate | rewrite int_Set ].

Ltac point_goal :=
  unfold cross_xy, cross_yx, Point.Add, Point.Double, Point.Negate, Point.pZero,
    Element.SetInt, two;
  cbn [pX pY pT pZ]; field_ops; cbn [int].

Lemma Add_neutral_cross (P : Point) : cross_xy (Point.Add P Point.pZero) P.
Proof. point_goal. apply eq_eqp. ring. Qed.

Lemma Add_negate_cross (P : Point) :
  cross_xy (Point.Add P (Point.Negate P)) Point.pZero.
Proof. point_goal. apply eq_eqp. ring. Qed.

(** The curve equation in extended coordinates, [X^2 + Y^2 = Z^2 + D T^2]. *)
Lemma valid_extended (P : Point) :
  valid P ->
  eqp (int (pX P) * int (pX P) + int (pY P) * int (pY P))
      (int (pZ P) * int (pZ P) + int D * (int (pT P) * int (pT P))).
Proof.
  intros (Hc & Ht & Hz). unfold on_curve in Hc.
  set (x := int (pX P)) in *. set (y := int (pY P)) in *.
  set (t := int (pT P)) in *. set (z := int (pZ P)) in *. set (d := int D) in *.
  assert (Hi : eqp (Z.invmod z fieldOrder * z) 1).
  { apply eqp_mod. rewrite (Z.mod_small 1) by (pose proof fieldOrder_pos; rewrite fieldOrder_eq; lia).
    apply Z.invmod_coprime; [rewrite fieldOrder_eq; lia | exact Hz]. }
  set (zi := Z.invmod z fieldOrder) in *.
  transitivity ((zi * z) * (zi * z) * (x * x + y * y)).
  { rewrite Hi. apply eq_eqp. ring. }
  transitivity (zi * zi * (x * x * (z * z) + y * y * (z * z))).
  { apply eq_eqp. ring. }
  rewrite Hc.
  transitivity (zi * zi * (z * z * (z * z) + d * ((x * y) * (x * y)))).
  { apply eq_eqp. ring. }
  rewrite <- Ht.
  transitivity ((zi * z) * (zi * z) * (z * z + d * (t * t))).
  { apply eq_eqp. ring. }
  rewrite Hi. apply eq_eqp. ring.
Qed.

Lemma Double_Add_cross (P : Point) :
  valid P -> cross_xy (Point.Double P) (Point.Add P P).
Proof.
  intros HP. pose proof (valid_extended P HP) as He.
  point_goal.
  set (x := int (pX P)) in *. set (y := int (pY P)) in *.
  set (t := int (pT P)) in *. set (z := int (pZ P)) in *. set (d := int D) in *.
  transitivity (((x + y) * (x + y) - x * x - y * y) * ((x * x + y * y) - 2 * (z * z))
                * ((z * z + t * t * d) * (y * y - x * x))).
  { apply eq_eqp. ring. }
  transitivity ((x * x + y * y) * (x * x - y * y)
                * (((x + y) * (x + y) - x * x - y * y) * (z * z - t * t * d))).
  2: { apply eq_eqp. ring. }
  transitivity (((x + y) * (x + y) - x * x - y * y) * ((z * z + d * (t * t)) - 2 * (z * z))
                * ((z * z + t * t * d) * (y * y - x * x))).
  { rewrite He. reflexivity. }
  transitivity ((z * z + d * (t * t)) * (x * x - y * y)
                * (((x + y) * (x + y) - x * x - y * y) * (z * z - t * t * d))).
  { apply eq_eqp. ring. }
  rewrite He. reflexivity.
Qed.

(** ** The claims on points *)

(** C6, as the code has it: [IsEqual] returns 1 exactly when at least one
    of the two cross-product identities holds modulo p, and 0 otherwise; it
    never panics. *)
Theorem IsEqual_iff_either (P Q : Point) :
  (Point.IsEqual P Q = Ok 1 <-> cross_xy P Q \/ cross_yx P Q) /\
  (Point.IsEqual P Q = Ok 1 \/ Point.IsEqual P Q = Ok 0).
Proof.
  split; [|apply IsEqual_total].
  rewrite IsEqual_bits. unfold cross_xy, cross_yx.
  rewrite !eqp_mod, <- !Z.eqb_eq, <- orb_true_iff.
  match goal with |- context [bit ?b] => destruct b end; cbn [bit];
    split; intros H; congruence.
Qed.

(** C6, as the specification words it, fails: the neutral element equals
    itself under [IsEqual] although [Y1*Y2 = X1*X2] does not hold for it. *)
Lemma IsEqual_neutral_one_identity :
  ~ (Point.IsEqual Point.pZero Point.pZero = Ok 1 <->
     cross_xy Point.pZero Point.pZero /\ cross_yx Point.pZero Point.pZero).
Proof.
  intros [H _].
  assert (E : Point.IsEqual Point.pZero Point.pZero = Ok 1) by (vm_compute; reflexivity).
  destruct (H E) as [_ Hyx]. vm_compute in Hyx. discriminate.
Qed.

(** ** The claims on field elements *)

Lemma Exp_canonical (e u : Element) (n : N) :
  canonical (Element.Exp e u (mkElement (Z.of_N n))).
Proof.
  unfold canonical, Element.Exp, BigInt.Exp. cbn [int].
  change (int curveOrder) with fieldOrder.
  pose proof fieldOrder_pos as Hp.
  destruct (Z.eqb_spec fieldOrder 0); [lia|].
  destruct (Z.ltb_spec (Z.of_N n) 0); [lia|].
  rewrite Z.abs_eq, Zpow_mod_correct by lia. apply mod_canonical.
Qed.

Lemma reduce_canonical (x : Z) : canonical (Element.reduce x (int curveOrder)).
Proof. unfold canonical. rewrite int_reduce. apply mod_canonical. Qed.

Lemma SetBytesBig_value (b : list byte) :
  int (Element.SetBytesBig b) = BigInt.le_value (rev b) /\
  0 <= int (Element.SetBytesBig b) < 256 ^ Z.of_nat (List.length b).
Proof.
  cbn [int Element.SetBytesBig]. split; [|apply SetBytes_range].
  now rewrite <- SetBytes_rev, rev_involutive.
Qed.

Lemma SetBytesLittle_value (b : list byte) :
  int (Element.SetBytesLittle b) = BigInt.le_value b /\
  0 <= int (Element.SetBytesLittle b) < 256 ^ Z.of_nat (List.length b).
Proof.
  cbn [int Element.SetBytesLittle]. split.
  - now rewrite reverse_rev, SetBytes_rev.
  - rewrite <- (length_reverse b). apply SetBytes_range.
Qed.

(** C8, as the code has it: Add, Subtract, Multiply, Square, Negate and
    exponentiation to a non-negative exponent (in particular to (p-3)/4)
    leave a value in [0, p), whatever integers the operands hold;
    SetBytesBig and SetBytesLittle store the unsigned big-endian, resp.
    little-endian, value of the byte string as it is, without reduction, so
    the stored value lies in [0, 256^len). *)
Theorem arithmetic_canonical (e u v : Element) (n : N) (b : list byte) :
  canonical (Element.Add u v) /\
  canonical (Element.Subtract u v) /\
  canonical (Element.Multiply u v) /\
  canonical (Element.Square u) /\
  canonical (Element.Negate u) /\
  canonical (Element.Exp e u (mkElement (Z.of_N n))) /\
  canonical (Element.expPMinus3mod4 u) /\
  (int (Element.SetBytesBig b) = BigInt.le_value (rev b) /\
   0 <= int (Element.SetBytesBig b) < 256 ^ Z.of_nat (List.length b)) /\
  (int (Element.SetBytesLittle b) = BigInt.le_value b /\
   0 <= int (Element.SetBytesLittle b) < 256 ^ Z.of_nat (List.length b)).
Proof.
  split; [apply reduce_canonical|].
  split; [apply reduce_canonical|].
  split; [apply reduce_canonical|].
  split; [apply reduce_canonical|].
  split; [apply reduce_canonical|].
  split; [apply Exp_canonical|].
  split; [apply (Exp_canonical u u (Z.to_N (int pMinus3Div4)))|].
  split; [apply SetBytesBig_value | apply SetBytesLittle_value].
Qed.

(** C8, as the specification words it, fails: SetBytesLittle of fifty-six
    0xFF bytes stores 2^448 - 1, which is not below p. *)
Lemma SetBytesLittle_not_reduced :
  ~ canonical (Element.SetBytesLittle ones56).
Proof.
  unfold canonical. intros [_ H]. vm_compute in H. discriminate.
Qed.

(** C3 at u = v = 1: the code returns the root r = 1 as it is, although 1
    is odd, where the specification's primitive returns p - 1. *)
Theorem SqrtRatio_keeps_odd_root :
  Element.SqrtRatio one one = Ok (1, mkElement 1) /\
  Spec.IsNegativeCT 1 = true /\
  Spec.SqrtRatioM1 1 1 = (true, fieldOrder - 1).
Proof. vm_compute. repeat split; reflexivity. Qed.

(** On a canonical [u], [SqrtRatio] returns; its second component is the
    root [u * (u*v)^((p-3)/4)] itself. *)
Lemma SqrtRatio_total (u v : Element) :
  canonical u -> exists w r, Element.SqrtRatio u v = Ok (w, r).
Proof.
  intros Hu. unfold Element.SqrtRatio.
  rewrite IsEqualCT_canonical by (trivial; apply reduce_canonical).
  cbn [bind]. eauto.
Qed.

Lemma canonical_one : canonical one.
Proof. split; reflexivity || discriminate. Qed.

(** The sign test of the code never fires on a value that is not below
    zero, so [AbsoluteCT] returns such an operand as it is. *)
Lemma AbsoluteCT_nonneg (u : Element) :
  0 <= int u -> Element.IsNegative u = 0 /\ Element.AbsoluteCT u = u.
Proof.
  intros H. assert (E : Element.IsNegative u = 0).
  { unfold Element.IsNegative, BigInt.Sign.
    destruct (Z.eqb_spec (Z.sgn (int u)) (-1)) as [S|S]; [|reflexivity].
    apply Z.sgn_neg_iff in S. lia. }
  split; [exact E|]. unfold Element.AbsoluteCT. rewrite E.
  destruct u. reflexivity.
Qed.

(** What [SqrtRatio] does on a canonical [u]: the root is
    [r = u * (u*v)^((p-3)/4)], the flag says whether [v * r^2 = u], and the
    root is returned as it is. *)
Lemma SqrtRatio_code (u v : Element) :
  canonical u ->
  let r := Element.Multiply (Element.expPMinus3mod4 (Element.Multiply u v)) u in
  Element.SqrtRatio u v =
    Ok (bit (int (Element.Multiply v (Element.Square r)) =? int u), r) /\
  int r = ((int u * int v) ^ ((fieldOrder - 3) / 4) mod fieldOrder * int u) mod fieldOrder.
Proof.
  intros Hu r. split.
  - unfold Element.SqrtRatio. fold r.
    rewrite IsEqualCT_canonical by (trivial; apply reduce_canonical).
    cbn [bind].
    destruct (AbsoluteCT_nonneg r) as [_ ->]; [apply reduce_canonical|].
    reflexivity.
  - unfold r. rewrite int_Multiply. f_equal. f_equal.
    unfold Element.expPMinus3mod4, Element.Exp, BigInt.Exp.
    change (int curveOrder) with fieldOrder. rewrite pMinus3Div4_eq.
    pose proof fieldOrder_pos as Hp.
    destruct (Z.eqb_spec fieldOrder 0); [lia|].
    destruct (Z.ltb_spec ((fieldOrder - 3) / 4) 0) as [Hneg|_].
    { exfalso. revert Hneg. rewrite <- pMinus3Div4_eq. discriminate. }
    cbn [int]. rewrite Z.abs_eq, Zpow_mod_correct, int_Multiply by lia.
    rewrite <- Zpower_mod by lia. reflexivity.
Qed.

(** ** The claims on group elements *)

(** C10: whatever the receiver holds, Decode accepts the all-zero 56-byte
    string and leaves the receiver with the point (0, 1, 0, 1). *)
Theorem Decode_zeros_neutral (e : DecafElement) :
  Decaf.Decode zeros56 e =
    (Ok tt, mkDecafElement (mkPoint (mkElement 0) (mkElement 1) (mkElement 0) (mkElement 1))).
Proof. vm_compute. reflexivity. Qed.

(** C2 at the neutral element: Encode returns the empty byte string, not
    56 bytes. *)
Theorem Encode_neutral_empty :
  Decaf.Encode (mkDecafElement Point.pZero) = Ok [] /\
  (forall b, Decaf.Encode (mkDecafElement Point.pZero) = Ok b -> List.length b <> 56%nat).
Proof.
  assert (E : Decaf.Encode (mkDecafElement Point.pZero) = Ok []) by (vm_compute; reflexivity).
  split; [exact E|]. rewrite E. intros b [= <-]. discriminate.
Qed.

(** C1 at the all-zero string: Decode accepts it, and encoding the decoded
    element returns the empty byte string instead of the 56 bytes read. *)
Theorem Encode_Decode_zeros :
  exists e,
    Decaf.Decode zeros56 NewGroupElement = (Ok tt, e) /\
    BigInt.le_value zeros56 = 0 /\ Spec.IsNegativeCT 0 = false /\
    Decaf.Encode e = Ok [] /\ Decaf.Encode e <> Ok zeros56.
Proof.
  eexists. split; [vm_compute; reflexivity|].
  repeat split; try (vm_compute; reflexivity).
  vm_compute. discriminate.
Qed.

(** C5 at the 56-byte string of the integer 5: the value is below p and
    odd, and Decode accepts it. *)
Theorem Decode_accepts_odd :
  int (Element.SetBytesLittle five56) = 5 /\
  5 < fieldOrder /\
  Spec.IsNegativeCT 5 = true /\
  fst (Decaf.Decode five56 NewGroupElement) = Ok tt.
Proof. vm_compute. repeat split; reflexivity. Qed.

(** No input makes Decode fail on the sign: the string is read as an
    unsigned integer, and the sign test asks for a value below zero. *)
Lemma SetBytesLittle_never_negative (input : list byte) :
  Element.IsNegative (Element.SetBytesLittle input) = 0.
Proof.
  apply AbsoluteCT_nonneg. cbn [int Element.SetBytesLittle]. apply SetBytes_range.
Qed.

Lemma Decode_never_fails_on_sign (input : list byte) (e : DecafElement) :
  fst (Decaf.Decode input e) <> Panic "negative".
Proof.
  unfold Decaf.Decode.
  destruct (negb (List.length input =? 56)%nat); [discriminate|].
  destruct (negb (Element.Compare curveOrder (Element.SetBytesLittle input) =? 1)); [discriminate|].
  rewrite SetBytesLittle_never_negative. cbn [Z.eqb].
  cbv beta zeta delta [bind_recv lift].
  match goal with
  | |- context [Element.SqrtRatio ?a ?b] =>
      destruct (SqrtRatio_total a b canonical_one) as [w [r E]]; rewrite E
  end.
  destruct (negb (w =? 1)); [discriminate|].
  cbv beta iota zeta delta [bind_recv write ret fst]. discriminate.
Qed.

(** The panics of Decode: the length, the range, and the square test. *)
Lemma Decode_panics (input : list byte) (e : DecafElement) (msg : string) :
  fst (Decaf.Decode input e) = Panic msg ->
  (msg = "invalid length"%string /\ List.length input <> 56%nat) \/
  (msg = "out of order"%string /\ fieldOrder <= int (Element.SetBytesLittle input)) \/
  msg = "not square"%string.
Proof.
  unfold Decaf.Decode.
  destruct (Nat.eqb_spec (List.length input) 56) as [Hl|Hl]; cbn [negb].
  2: { intros [= <-]. left. auto. }
  unfold Element.Compare, BigInt.Cmp. change (int curveOrder) with fieldOrder.
  destruct (Z.compare_spec fieldOrder (int (Element.SetBytesLittle input))) as [Hc|Hc|Hc];
    cbn [Z.eqb negb Pos.eqb];
    try (intros [= <-]; right; left; split; [reflexivity | lia]).
  rewrite SetBytesLittle_never_negative. cbn [Z.eqb].
  cbv beta zeta delta [bind_recv lift].
  match goal with
  | |- context [Element.SqrtRatio ?a ?b] =>
      destruct (SqrtRatio_total a b canonical_one) as [w [r E]]; rewrite E
  end.
  destruct (negb (w =? 1)).
  - intros [= <-]. right. right. reflexivity.
  - cbv beta iota zeta delta [bind_recv write ret fst]. discriminate.
Qed.

(** C9: when Decode panics, for whatever reason, the receiver is as it was
    before the call. *)
Theorem Decode_panic_keeps_receiver (input : list byte) (e : DecafElement) (msg : string) :
  fst (Decaf.Decode input e) = Panic msg -> snd (Decaf.Decode input e) = e.
Proof.
  unfold Decaf.Decode.
  destruct (negb (List.length input =? 56)%nat); [reflexivity|].
  destruct (negb (Element.Compare curveOrder (Element.SetBytesLittle input) =? 1)); [reflexivity|].
  destruct (Element.IsNegative (Element.SetBytesLittle input) =? 1); [reflexivity|].
  cbv beta zeta delta [bind_recv lift].
  match goal with
  | |- context [Element.SqrtRatio ?a ?b] =>
      destruct (Element.SqrtRatio a b) as [[wasSquare invsqrt]|m]
  end; [|reflexivity].
  destruct (negb (wasSquare =? 1)); [reflexivity|].
  cbv beta iota zeta delta [bind_recv write ret fst]. discriminate.
Qed.

Lemma Decode_panic_keeps_receiver_witness :
  fst (Decaf.Decode [] (mkDecafElement samplePoint)) = Panic "invalid length" /\
  snd (Decaf.Decode [] (mkDecafElement samplePoint)) = mkDecafElement samplePoint.
Proof.
  split; [reflexivity|].
  apply (Decode_panic_keeps_receiver [] (mkDecafElement samplePoint) "invalid length").
  reflexivity.
Defined.

Lemma map_locals_half2 : Decaf._map_locals half2 = Ok half2_locals.
Proof. vm_compute. reflexivity. Qed.

(** C4 at a half of big-endian value 2: the local w1 that the point is
    built from is s + 1, not s^2 + 1, and with it the coordinates Y and Z
    differ from w2 * (s^2 + 1) and (s^2 + 1) * w3. *)
Theorem map_w1_is_s_plus_one :
  exists l q,
    Decaf._map_locals half2 = Ok l /\ Decaf._map half2 = Ok q /\
    Decaf.m_w0 l = Element.Multiply two (Decaf.m_s l) /\
    Decaf.m_w1 l = Element.Add (Decaf.m_s l) one /\
    Decaf.m_w1 l <> Element.Add (Element.Square (Decaf.m_s l)) one /\
    pY q <> Element.Multiply (Decaf.m_w2 l) (Element.Add (Element.Square (Decaf.m_s l)) one) /\
    pZ q <> Element.Multiply (Element.Add (Element.Square (Decaf.m_s l)) one) (Decaf.m_w3 l).
Proof.
  exists half2_locals. eexists.
  split; [exact map_locals_half2|].
  split; [unfold Decaf._map; rewrite map_locals_half2; cbn [bind]; reflexivity|].
  repeat split; vm_compute; congruence.
Qed.

(** * Further properties of the code *)

(** ** Byte slices and field elements *)

(** [reverse] returns the slice in the opposite order, keeps its length,
    and undoes itself. *)
Theorem reverse_reverses (b : list byte) :
  reverse b = rev b /\
  List.length (reverse b) = List.length b /\
  reverse (reverse b) = b.
Proof.
  split; [apply reverse_rev|]. split; [apply length_reverse|].
  now rewrite !reverse_rev, rev_involutive.
Qed.

(** [Bytes] followed by [SetBytesBig], and [Bytes], [reverse] and
    [SetBytesLittle], give back the absolute value of the element; a
    canonical element comes back as it is. *)
Theorem Bytes_round_trip (e : Element) :
  Element.SetBytesBig (Element.Bytes e) = mkElement (Z.abs (int e)) /\
  Element.SetBytesLittle (reverse (Element.Bytes e)) = mkElement (Z.abs (int e)) /\
  (canonical e -> Element.SetBytesLittle (reverse (Element.Bytes e)) = e).
Proof.
  assert (B : Element.SetBytesBig (Element.Bytes e) = mkElement (Z.abs (int e))).
  { unfold Element.SetBytesBig, Element.Bytes. now rewrite Bytes_SetBytes. }
  assert (L : Element.SetBytesLittle (reverse (Element.Bytes e)) = mkElement (Z.abs (int e))).
  { unfold Element.SetBytesLittle. rewrite !reverse_rev, rev_involutive. exact B. }
  repeat split; trivial.
  intros [H _]. rewrite L, Z.abs_eq by exact H. now destruct e.
Qed.

Lemma Bytes_round_trip_witness :
  canonical two /\ Element.SetBytesLittle (reverse (Element.Bytes two)) = two.
Proof.
  assert (H : canonical two) by (split; [discriminate | reflexivity]).
  split; [exact H | exact (proj2 (proj2 (Bytes_round_trip two)) H)].
Defined.

Lemma length_le_digits (fuel n : nat) (x : Z) :
  0 <= x < 256 ^ Z.of_nat n -> (List.length (BigInt.le_digits fuel x) <= n)%nat.
Proof.
  revert n x. induction fuel as [|fuel IH]; intros n x Hx; cbn [BigInt.le_digits].
  - simpl. lia.
  - destruct (Z.eqb_spec x 0) as [->|Hne]; [simpl; lia|].
    destruct n as [|n]; [simpl in Hx; lia|].
    cbn [List.length]. apply le_n_S, IH.
    rewrite Nat2Z.inj_succ, Z.pow_succ_r in Hx by lia.
    split; [apply Z.div_pos; lia | apply Z.div_lt_upper_bound; lia].
Qed.

(** [Bytes] has minimal length: it fits in [n] bytes exactly when the
    absolute value is below [256^n]; in particular it is empty for 0. *)
Lemma Bytes_length (x : Z) (n : nat) :
  (List.length (BigInt.Bytes x) <= n)%nat <-> Z.abs x < 256 ^ Z.of_nat n.
Proof.
  split.
  - intros H. pose proof (SetBytes_range (BigInt.Bytes x)) as R.
    rewrite Bytes_SetBytes in R.
    apply Z.lt_le_trans with (1 := proj2 R).
    apply Z.pow_le_mono_r; lia.
  - intros H. unfold BigInt.Bytes. rewrite length_rev.
    apply length_le_digits. pose proof (Z.abs_nonneg x). lia.
Qed.

(** [IsEqualCT] compares absolute values: it panics when one of the two
    does not fit in 56 bytes, and otherwise returns 1 exactly when the
    absolute values are equal. *)
Theorem IsEqualCT_abs (a b : Element) :
  Element.IsEqualCT a b =
    if (Z.abs (int a) <? 2 ^ 448) && (Z.abs (int b) <? 2 ^ 448)
    then Ok (bit (Z.abs (int a) =? Z.abs (int b)))
    else Panic "math/big: buffer too small to fit value".
Proof.
  unfold Element.IsEqualCT, BigInt.FillBytes.
  change (256 ^ Z.of_nat 56) with (2 ^ 448).
  destruct (Z.ltb_spec (Z.abs (int a)) (2 ^ 448)) as [Ha|Ha]; cbn [bind andb]; [|reflexivity].
  destruct (Z.ltb_spec (Z.abs (int b)) (2 ^ 448)) as [Hb|Hb]; cbn [bind]; [|reflexivity].
  f_equal. unfold BigInt.ConstantTimeCompare, bit.
  destruct (Z.eqb_spec (Z.abs (int a)) (Z.abs (int b))) as [E|E], (list_eq_dec _ _ _) as [L|L];
    try reflexivity.
  - rewrite E in L. congruence.
  - exfalso. apply E. apply rev_inj in L.
    apply (le_fixed_inj 56); trivial;
      change (256 ^ Z.of_nat 56) with (2 ^ 448); pose proof (Z.abs_nonneg (int a));
      pose proof (Z.abs_nonneg (int b)); lia.
Qed.

(** ** The square-root-ratio primitive *)

(** On a canonical [u], [SqrtRatio] returns without panic a flag 0 or 1
    and a canonical root [r], and the flag is 1 exactly when
    [v * r^2 = u] modulo p. *)
Theorem SqrtRatio_sound (u v : Element) :
  canonical u ->
  exists w r,
    Element.SqrtRatio u v = Ok (w, r) /\ canonical r /\
    (w = 0 \/ w = 1) /\
    (w = 1 <-> eqp (int v * (int r * int r)) (int u)).
Proof.
  intros Hu. destruct (SqrtRatio_code u v Hu) as [E _].
  match type of E with _ = Ok (?w, ?r) => exists w, r end.
  split; [exact E|]. split; [apply reduce_canonical|].
  rewrite int_Multiply, int_Square.
  match goal with |- context [bit ?b] => destruct b eqn:B end; cbn [bit].
  - split; [auto|]. split; [intros _|reflexivity].
    apply Z.eqb_eq in B. apply eqp_mod.
    rewrite Z.mul_mod_idemp_r in B by (pose proof fieldOrder_pos; lia).
    rewrite B. symmetry. apply Z.mod_small, Hu.
  - split; [auto|]. split; [discriminate|]. intros H. exfalso.
    apply Z.eqb_neq in B. apply B. apply eqp_mod in H.
    rewrite Z.mul_mod_idemp_r by (pose proof fieldOrder_pos; lia).
    rewrite H. apply Z.mod_small, Hu.
Qed.

Lemma SqrtRatio_sound_witness :
  canonical one /\
  exists w r,
    Element.SqrtRatio one two = Ok (w, r) /\ canonical r /\
    (w = 0 \/ w = 1) /\
    (w = 1 <-> eqp (int two * (int r * int r)) (int one)).
Proof.
  split; [exact canonical_one | exact (SqrtRatio_sound one two canonical_one)].
Defined.

Lemma expPMinus3mod4_zero : Element.expPMinus3mod4 (mkElement 0) = mkElement 0.
Proof. vm_compute. reflexivity. Qed.

(** When [u * v] is zero modulo p (a zero numerator or denominator), the
    root is 0, and the flag is 1 exactly when [u] is 0. *)
Theorem SqrtRatio_zero (u v : Element) :
  canonical u -> eqp (int u * int v) 0 ->
  Element.SqrtRatio u v = Ok (bit (int u =? 0), mkElement 0).
Proof.
  intros Hu H0. destruct (SqrtRatio_code u v Hu) as [E _]. rewrite E. clear E.
  assert (M : Element.Multiply u v = mkElement 0).
  { unfold Element.Multiply, Element.reduce, BigInt.Mod.
    change (Z.abs (int curveOrder)) with fieldOrder. apply eqp_mod in H0.
    now rewrite H0. }
  rewrite M, expPMinus3mod4_zero.
  assert (R : Element.Multiply (mkElement 0) u = mkElement 0) by reflexivity.
  rewrite R.
  assert (S : Element.Multiply v (Element.Square (mkElement 0)) = mkElement 0).
  { unfold Element.Multiply, Element.Square, Element.reduce, BigInt.Mod. cbn [int].
    change (Z.abs (int curveOrder)) with fieldOrder.
    rewrite Z.mul_0_l, Z.mod_0_l, Z.mul_0_r, Z.mod_0_l by (pose proof fieldOrder_pos; lia).
    reflexivity. }
  rewrite S. cbn [int]. now rewrite Z.eqb_sym.
Qed.

Lemma SqrtRatio_zero_witness :
  canonical two /\ eqp (int two * int zero) 0 /\
  Element.SqrtRatio two zero = Ok (bit (int two =? 0), mkElement 0).
Proof.
  assert (H : canonical two) by (split; [discriminate | reflexivity]).
  assert (H0 : eqp (int two * int zero) 0) by reflexivity.
  split; [exact H|]. split; [exact H0 | exact (SqrtRatio_zero two zero H H0)].
Defined.

(** ** Equality and the group law on arbitrary points *)

Lemma IsEqual_iff_helper (P Q : Point) :
  (Point.IsEqual P Q = Ok 1 -> cross_xy P Q \/ cross_yx P Q) /\
  (cross_xy P Q \/ cross_yx P Q -> Point.IsEqual P Q = Ok 1).
Proof.
  rewrite IsEqual_bits. unfold cross_xy, cross_yx.
  rewrite !eqp_mod, <- !Z.eqb_eq, <- orb_true_iff.
  match goal with |- context [bit ?b] => destruct b end; cbn [bit];
    split; intros H; congruence.
Qed.

(** [IsEqual] is reflexive and symmetric on all points. *)
Theorem IsEqual_refl_sym (P Q : Point) :
  Point.IsEqual P P = Ok 1 /\ Point.IsEqual P Q = Point.IsEqual Q P.
Proof.
  split.
  - apply IsEqual_cross_xy. unfold cross_xy. apply eq_eqp. ring.
  - rewrite !IsEqual_bits. do 2 f_equal.
    rewrite (Z.mul_comm (int (pY Q)) (int (pX P))), (Z.mul_comm (int (pX Q)) (int (pY P))).
    rewrite (Z.mul_comm (int (pY Q)) (int (pY P))), (Z.mul_comm (int (pX Q)) (int (pX P))).
    f_equal. apply Z.eqb_sym.
Qed.

(** [IsInfinity] returns 1 exactly when X or Y is zero modulo p, and 0
    otherwise: besides the neutral element it accepts every point with
    X = 0 or Y = 0, whatever T and Z are. *)
Theorem IsInfinity_iff (P : Point) :
  (Point.IsInfinity P = Ok 1 <-> eqp (int (pX P)) 0 \/ eqp (int (pY P)) 0) /\
  (Point.IsInfinity P = Ok 1 \/ Point.IsInfinity P = Ok 0).
Proof.
  unfold Point.IsInfinity. split; [|apply IsEqual_total].
  destruct (IsEqual_iff_helper P Point.pZero) as [H1 H2].
  split.
  - intros H. apply H1 in H. unfold cross_xy, cross_yx, Point.pZero, Element.SetInt in H.
    cbn [pX pY int] in H. rewrite !Z.mul_1_r, !Z.mul_0_r in H. exact H.
  - intros H. apply H2. unfold cross_xy, cross_yx, Point.pZero, Element.SetInt.
    cbn [pX pY int]. rewrite !Z.mul_1_r, !Z.mul_0_r. exact H.
Qed.

(** A point with X = Y = 0, such as the point of a fresh [DecafElement],
    is equal to every point under [IsEqual]. *)
Theorem IsEqual_zero_XY (t z : Element) (Q : Point) :
  Point.IsEqual (mkPoint zero zero t z) Q = Ok 1 /\
  Point.IsEqual (p NewGroupElement) Q = Ok 1.
Proof.
  split; apply IsEqual_cross_xy; unfold cross_xy; cbn [pX pY p NewGroupElement int zero];
    apply eq_eqp; ring.
Qed.

Lemma Element_ext (a b : Element) : int a = int b -> a = b.
Proof. destruct a as [x], b as [y]. cbn [int]. now intros ->. Qed.

(** Two canonical elements that are congruent are equal. *)
Lemma canonical_eq (a b : Element) :
  canonical a -> canonical b -> eqp (int a) (int b) -> a = b.
Proof.
  intros Ha Hb H. apply Element_ext. unfold eqp, eqm in H.
  now rewrite !Z.mod_small in H.
Qed.

Lemma canonical_Set (u : Element) : canonical u -> canonical (Element.Set_ u).
Proof. intros H. exact H. Qed.

Ltac canon :=
  repeat apply canonical_Set;
  first [ apply (reduce_canonical _) | exact canonical_one | assumption ].

(** [Add] is commutative, coordinate by coordinate. *)
Theorem Add_comm (P Q : Point) : Point.Add P Q = Point.Add Q P.
Proof.
  unfold Point.Add.
  f_equal; apply canonical_eq; try canon; field_ops; apply eq_eqp; ring.
Qed.

(** Negation commutes with addition and with doubling, coordinate by
    coordinate. *)
Theorem Negate_Add_Double (P Q : Point) :
  Point.Add (Point.Negate P) (Point.Negate Q) = Point.Negate (Point.Add P Q) /\
  Point.Double (Point.Negate P) = Point.Negate (Point.Double P).
Proof.
  split; unfold Point.Add, Point.Double, Point.Negate; cbn [pX pY pT pZ];
    f_equal; apply canonical_eq; try canon; field_ops; cbn [int two];
    apply eq_eqp; ring.
Qed.

(** For every point P, valid or not, [P.Subtract(P)] is at infinity. *)
Theorem Subtract_self (P : Point) :
  Point.IsInfinity (Point.Subtract P P) = Ok 1.
Proof.
  unfold Point.IsInfinity, Point.Subtract. apply IsEqual_cross_xy, Add_negate_cross.
Qed.

Lemma canonical_Multiply (u v : Element) : canonical (Element.Multiply u v).
Proof. apply reduce_canonical. Qed.

(** Whatever the operands hold, the results of [Add] and [Double] have
    canonical coordinates and satisfy [T*Z = X*Y]. *)
Theorem Add_Double_coherent (P Q : Point) :
  (canonical_point (Point.Add P Q) /\ coherent (Point.Add P Q)) /\
  (canonical_point (Point.Double P) /\ coherent (Point.Double P)).
Proof.
  unfold canonical_point, coherent, Point.Add, Point.Double; cbn [pX pY pT pZ].
  repeat split; try apply canonical_Multiply;
    rewrite !eqp_Multiply; apply eq_eqp; ring.
Qed.

(** ** Closure of the curve under the group law *)

Lemma eqp_shift (a b c : Z) : eqp c 0 -> a = b + c -> eqp a b.
Proof. intros H ->. rewrite H. apply eq_eqp. ring. Qed.

Lemma Add_coherent (P Q : Point) : coherent (Point.Add P Q).
Proof.
  unfold coherent, Point.Add; cbn [pX pY pT pZ].
  rewrite !eqp_Multiply. apply eq_eqp. ring.
Qed.

Lemma Double_coherent (P : Point) : coherent (Point.Double P).
Proof.
  unfold coherent, Point.Double; cbn [pX pY pT pZ].
  rewrite !eqp_Multiply. apply eq_eqp. ring.
Qed.

Lemma Double_extended (P : Point) : extended P -> extended (Point.Double P).
Proof.
  intros [He Hc]. split; [|apply Double_coherent].
  unfold coherent in Hc.
  unfold Point.Double, two; cbn [pX pY pT pZ]; field_ops; cbn [int].
  set (x := int (pX P)) in *. set (y := int (pY P)) in *.
  set (t := int (pT P)) in *. set (z := int (pZ P)) in *. set (d := int D) in *.
  apply eqp_shift with
    (c := (x * x - y * y) * (x * x - y * y)
          * (4 * (z * z) * ((x * x + y * y) - (z * z + d * (t * t)))
             + 4 * d * ((t * z) * (t * z) - (x * y) * (x * y)))).
  - rewrite He, Hc. apply eq_eqp. ring.
  - ring.
Qed.

Lemma Add_extended (P Q : Point) :
  extended P -> extended Q -> extended (Point.Add P Q).
Proof.
  intros [He1 Hc1] [He2 Hc2]. split; [|apply Add_coherent].
  unfold coherent in Hc1, Hc2.
  unfold Point.Add; cbn [pX pY pT pZ]; field_ops.
  set (x1 := int (pX P)) in *. set (y1 := int (pY P)) in *.
  set (t1 := int (pT P)) in *. set (z1 := int (pZ P)) in *.
  set (x2 := int (pX Q)) in *. set (y2 := int (pY Q)) in *.
  set (t2 := int (pT Q)) in *. set (z2 := int (pZ Q)) in *. set (d := int D) in *.
  apply eqp_shift with
    (c := (x1 * x1 + y1 * y1) * (x2 * x2 + y2 * y2)
            * (z1 * z1 * (z2 * z2) + d * d * (t1 * t1 * (t2 * t2)))
          - 8 * d * ((t1 * z1) * (t2 * z2)) * ((x1 * y1) * (x2 * y2))
          + 2 * d * ((t1 * z1) * (t2 * z2)) * ((y1 * y1 - x1 * x1) * (y2 * y2 - x2 * x2))
          - (z1 * z1 * (z2 * z2) + d * d * (t1 * t1 * (t2 * t2)))
            * (z1 * z1 * (z2 * z2) + d * d * (t1 * t1 * (t2 * t2)))
          + 4 * d * d * ((t1 * z1) * (t1 * z1) * ((t2 * z2) * (t2 * z2)))
          - d * ((x1 * y1) * (x1 * y1))
            * ((x2 * x2 + y2 * y2) * (x2 * x2 + y2 * y2) - 4 * ((x2 * y2) * (x2 * y2)))
          - d * ((x2 * y2) * (x2 * y2))
            * ((x1 * x1 + y1 * y1) * (x1 * x1 + y1 * y1) - 4 * ((x1 * y1) * (x1 * y1)))
          - 2 * d * ((x1 * y1) * (x2 * y2)) * ((y1 * y1 - x1 * x1) * (y2 * y2 - x2 * x2))).
  - rewrite <- Hc1, <- Hc2, He1, He2. apply eq_eqp. ring.
  - ring.
Qed.

Lemma Negate_extended (P : Point) : extended P -> extended (Point.Negate P).
Proof.
  intros [He Hc]. unfold extended, coherent in *.
  unfold Point.Negate; cbn [pX pY pT pZ]. rewrite !int_Set. field_ops.
  split.
  - transitivity (int (pX P) * int (pX P) + int (pY P) * int (pY P)); [apply eq_eqp; ring|].
    rewrite He. apply eq_eqp. ring.
  - transitivity (- (int (pT P) * int (pZ P))); [apply eq_eqp; ring|].
    rewrite Hc. apply eq_eqp. ring.
Qed.

Lemma pZero_extended : extended Point.pZero.
Proof. split; reflexivity. Qed.

Lemma Set_extended (P : Point) : extended P -> extended (Point.Set_ P).
Proof. intros H. exact H. Qed.

(** The curve is closed under the group law: when the operands satisfy
    the curve equation in extended coordinates, so do the results of
    [Add], [Double], [Negate] and [Subtract]; the neutral element does. *)
Theorem curve_closed (P Q : Point) :
  extended P -> extended Q ->
  extended (Point.Add P Q) /\ extended (Point.Double P) /\
  extended (Point.Negate P) /\ extended (Point.Subtract P Q) /\
  extended Point.pZero.
Proof.
  intros HP HQ. repeat split; try apply pZero_extended.
  - apply Add_extended; trivial.
  - apply Add_extended; trivial.
  - apply Double_extended; trivial.
  - apply Double_extended; trivial.
  - apply Negate_extended; trivial.
  - apply Negate_extended; trivial.
  - apply Add_extended, Negate_extended; trivial.
  - apply Add_extended, Negate_extended; trivial.
Qed.

(** A valid point satisfies the curve equation in extended coordinates. *)
Lemma valid_is_extended (P : Point) : valid P -> extended P.
Proof.
  intros H. split; [apply valid_extended, H | apply H].
Qed.

Lemma samplePoint_extended : extended samplePoint.
Proof. split; vm_compute; reflexivity. Qed.

Lemma curve_closed_witness :
  extended samplePoint /\ extended Point.pZero /\
  extended (Point.Add samplePoint Point.pZero) /\ extended (Point.Double samplePoint) /\
  extended (Point.Negate samplePoint) /\ extended (Point.Subtract samplePoint Point.pZero) /\
  extended Point.pZero.
Proof.
  split; [exact samplePoint_extended|]. split; [exact pZero_extended|].
  exact (curve_closed samplePoint Point.pZero samplePoint_extended pZero_extended).
Defined.

(** ** The group identities on valid points *)

Lemma extended_on_curve (P : Point) : extended P -> on_curve P.
Proof.
  intros [He Hc]. unfold on_curve. unfold coherent in Hc.
  remember (int (pX P)) as x eqn:Q; clear Q. remember (int (pY P)) as y eqn:Q; clear Q.
  remember (int (pT P)) as t eqn:Q; clear Q. remember (int (pZ P)) as z eqn:Q; clear Q.
  remember (int D) as d eqn:Q; clear Q.
  apply eqp_shift with
    (c := z * z * ((x * x + y * y) - (z * z + d * (t * t)))
          + d * ((t * z) * (t * z) - (x * y) * (x * y))).
  - rewrite He, Hc. apply eq_eqp. ring.
  - ring.
Qed.

Lemma unit_eqp (a b : Z) :
  eqp a b -> Z.gcd a fieldOrder = 1 -> Z.gcd b fieldOrder = 1.
Proof.
  intros H Ha. rewrite <- Z.gcd_mod_l. rewrite <- Z.gcd_mod_l in Ha.
  unfold eqp, eqm in H. now rewrite <- H.
Qed.

Lemma unit_mul (a b : Z) :
  Z.gcd a fieldOrder = 1 -> Z.gcd b fieldOrder = 1 -> Z.gcd (a * b) fieldOrder = 1.
Proof. intros Ha Hb. apply Z.coprime_mul_l; assumption. Qed.

Lemma Add_neutral_scaled (P : Point) :
  coherent P -> scaled (int (pZ P)) P (Point.Add P Point.pZero).
Proof.
  intros Hc. unfold coherent in Hc. unfold scaled.
  unfold Point.Add, Point.pZero, Element.SetInt; cbn [pX pY pT pZ]; field_ops; cbn [int].
  remember (int (pX P)) as x eqn:Q; clear Q. remember (int (pY P)) as y eqn:Q; clear Q.
  remember (int (pT P)) as t eqn:Q; clear Q. remember (int (pZ P)) as z eqn:Q; clear Q.
  remember (int D) as d eqn:Q; clear Q.
  repeat split; try (apply eq_eqp; ring).
  transitivity (x * y); [apply eq_eqp; ring|]. rewrite <- Hc. apply eq_eqp. ring.
Qed.

Lemma scaled_same_point (k : Z) (P Q : Point) : scaled k P Q -> same_point Q P.
Proof.
  intros (Hx & Hy & Ht & Hz). unfold same_point.
  rewrite Hx, Hy, Ht, Hz. repeat split; apply eq_eqp; ring.
Qed.

Lemma Add_neutral_valid (P : Point) : valid P -> valid (Point.Add P Point.pZero).
Proof.
  intros HP. pose proof (valid_extended P HP) as He. destruct HP as (_ & Hc & Hz).
  assert (Hx : extended (Point.Add P Point.pZero)).
  { apply Add_extended; [split; assumption | apply pZero_extended]. }
  split; [apply extended_on_curve, Hx|]. split; [apply Hx|].
  destruct (Add_neutral_scaled P Hc) as (_ & _ & _ & Hs).
  apply unit_eqp with (a := int (pZ P) * int (pZ P)); [symmetry; exact Hs|].
  apply unit_mul; exact Hz.
Qed.

Lemma Negate_valid (P : Point) : valid P -> valid (Point.Negate P).
Proof.
  intros HP. pose proof (valid_extended P HP) as He. destruct HP as (_ & Hc & Hz).
  assert (Hx : extended (Point.Negate P)) by (apply Negate_extended; split; assumption).
  split; [apply extended_on_curve, Hx|]. split; [apply Hx|]. exact Hz.
Qed.

Lemma Add_negate_scaled (P : Point) :
  extended P ->
  scaled ((int (pZ P) * int (pZ P) + int D * (int (pT P) * int (pT P)))
          * (int (pZ P) * int (pZ P) - int D * (int (pT P) * int (pT P))))
         Point.pZero (Point.Add P (Point.Negate P)).
Proof.
  intros [He _]. unfold scaled.
  unfold Point.Add, Point.Negate, Point.pZero, Element.SetInt; cbn [pX pY pT pZ];
    rewrite ?int_Set; field_ops; cbn [int].
  remember (int (pX P)) as x eqn:Q; clear Q. remember (int (pY P)) as y eqn:Q; clear Q.
  remember (int (pT P)) as t eqn:Q; clear Q. remember (int (pZ P)) as z eqn:Q; clear Q.
  remember (int D) as d eqn:Q; clear Q.
  repeat split; try (apply eq_eqp; ring).
  apply eqp_shift with
    (c := (z * z - d * (t * t)) * ((x * x + y * y) - (z * z + d * (t * t)))).
  - rewrite He. apply eq_eqp. ring.
  - ring.
Qed.

Lemma Double_Add_scaled (P : Point) :
  extended P -> scaled (-1) (Point.Add P P) (Point.Double P).
Proof.
  intros [He _]. unfold scaled.
  unfold Point.Add, Point.Double, two; cbn [pX pY pT pZ]; field_ops; cbn [int].
  remember (int (pX P)) as x eqn:Q; clear Q. remember (int (pY P)) as y eqn:Q; clear Q.
  remember (int (pT P)) as t eqn:Q; clear Q. remember (int (pZ P)) as z eqn:Q; clear Q.
  remember (int D) as d eqn:Q; clear Q.
  split; [|split; [|split]].
  - apply eqp_shift with
      (c := ((x + y) * (x + y) - x * x - y * y) * ((x * x + y * y) - (z * z + d * (t * t)))).
    + rewrite He. apply eq_eqp. ring.
    + ring.
  - apply eqp_shift with
      (c := (x * x - y * y) * ((x * x + y * y) - (z * z + d * (t * t)))).
    + rewrite He. apply eq_eqp. ring.
    + ring.
  - apply eq_eqp. ring.
  - apply eqp_shift with
      (c := ((x * x + y * y) - (z * z + d * (t * t)))
            * ((x * x + y * y) - 2 * (z * z) + (z * z + t * t * d))).
    + rewrite He. apply eq_eqp. ring.
    + ring.
Qed.

(** C7, as the code has it.  For every valid point P of the curve of
    fe.go, [x^2 + y^2 = 1 - 39081 x^2 y^2] (with [T*Z = X*Y] and Z a unit
    modulo p), and with projective equality [X1*Z2 = X2*Z1],
    [Y1*Z2 = Y2*Z1], [T1*Z2 = T2*Z1] modulo p:
    Add(P, Neutral) is P with every coordinate multiplied by Z, a valid
    point projectively equal to P;
    Negate(P) is valid, and Add(P, Negate(P)) is the neutral element
    (0, 1, 0, 1) with every coordinate multiplied by
    [(Z^2 + D T^2) * (Z^2 - D T^2)], projectively equal to Neutral;
    Double(P) is Add(P, P) with every coordinate negated, projectively
    equal to it;
    and IsEqual returns 1 on each of the three pairs. *)
Theorem group_identities (P : Point) :
  valid P ->
  (scaled (int (pZ P)) P (Point.Add P Point.pZero) /\
   valid (Point.Add P Point.pZero) /\
   same_point (Point.Add P Point.pZero) P) /\
  (valid (Point.Negate P) /\
   scaled ((int (pZ P) * int (pZ P) + int D * (int (pT P) * int (pT P)))
           * (int (pZ P) * int (pZ P) - int D * (int (pT P) * int (pT P))))
          Point.pZero (Point.Add P (Point.Negate P)) /\
   same_point (Point.Add P (Point.Negate P)) Point.pZero) /\
  (scaled (-1) (Point.Add P P) (Point.Double P) /\
   same_point (Point.Double P) (Point.Add P P)) /\
  (Point.IsEqual (Point.Add P Point.pZero) P = Ok 1 /\
   Point.IsEqual (Point.Add P (Point.Negate P)) Point.pZero = Ok 1 /\
   Point.IsEqual (Point.Double P) (Point.Add P P) = Ok 1).
Proof.
  intros HP. pose proof (valid_extended P HP) as He.
  assert (Hc : coherent P) by apply HP.
  assert (Hx : extended P) by (split; assumption).
  split; [|split; [|split]].
  - pose proof (Add_neutral_scaled P Hc) as S.
    split; [exact S|]. split; [apply Add_neutral_valid, HP|].
    apply (scaled_same_point _ _ _ S).
  - pose proof (Add_negate_scaled P Hx) as S.
    split; [apply Negate_valid, HP|]. split; [exact S|].
    apply (scaled_same_point _ _ _ S).
  - pose proof (Double_Add_scaled P Hx) as S.
    split; [exact S|]. apply (scaled_same_point _ _ _ S).
  - repeat split; apply IsEqual_cross_xy.
    + apply Add_neutral_cross.
    + apply Add_negate_cross.
    + apply Double_Add_cross, HP.
Qed.

Lemma group_identities_witness :
  valid samplePoint /\
  (scaled (int (pZ samplePoint)) samplePoint (Point.Add samplePoint Point.pZero) /\
   valid (Point.Add samplePoint Point.pZero) /\
   same_point (Point.Add samplePoint Point.pZero) samplePoint) /\
  (valid (Point.Negate samplePoint) /\
   scaled ((int (pZ samplePoint) * int (pZ samplePoint)
            + int D * (int (pT samplePoint) * int (pT samplePoint)))
           * (int (pZ samplePoint) * int (pZ samplePoint)
              - int D * (int (pT samplePoint) * int (pT samplePoint))))
          Point.pZero (Point.Add samplePoint (Point.Negate samplePoint)) /\
   same_point (Point.Add samplePoint (Point.Negate samplePoint)) Point.pZero) /\
  (scaled (-1) (Point.Add samplePoint samplePoint) (Point.Double samplePoint) /\
   same_point (Point.Double samplePoint) (Point.Add samplePoint samplePoint)) /\
  (Point.IsEqual (Point.Add samplePoint Point.pZero) samplePoint = Ok 1 /\
   Point.IsEqual (Point.Add samplePoint (Point.Negate samplePoint)) Point.pZero = Ok 1 /\
   Point.IsEqual (Point.Double samplePoint) (Point.Add samplePoint samplePoint) = Ok 1).
Proof.
  assert (H : valid samplePoint).
  { unfold valid, on_curve, eqp, eqm. repeat split; vm_compute; reflexivity. }
  split; [exact H | exact (group_identities samplePoint H)].
Defined.

(** C7, as the specification words it, fails twice.  Under the equality
    of its section 3 (both cross-product identities) each of the three
    identities fails already at the neutral element, which lies on the
    curve of fe.go and on the curve of section 3 alike; and at a point of
    the curve of section 3 Double(P) and Add(P, P) differ under every
    equality, IsEqual included. *)
Lemma group_identities_as_worded :
  (valid Point.pZero /\ on_spec_curve Point.pZero /\
   ~ both_cross (Point.Add Point.pZero Point.pZero) Point.pZero /\
   ~ both_cross (Point.Add Point.pZero (Point.Negate Point.pZero)) Point.pZero /\
   ~ both_cross (Point.Double Point.pZero) (Point.Add Point.pZero Point.pZero)) /\
  (on_spec_curve twistedPoint /\ coherent twistedPoint /\
   Z.gcd (int (pZ twistedPoint)) fieldOrder = 1 /\
   ~ both_cross (Point.Double twistedPoint) (Point.Add twistedPoint twistedPoint) /\
   ~ same_point (Point.Double twistedPoint) (Point.Add twistedPoint twistedPoint) /\
   Point.IsEqual (Point.Double twistedPoint) (Point.Add twistedPoint twistedPoint) = Ok 0).
Proof.
  split.
  - split; [unfold valid, on_curve, eqp, eqm; repeat split; vm_compute; reflexivity|].
    split; [vm_compute; reflexivity|].
    repeat split; intros [_ H]; vm_compute in H; discriminate.
  - split; [vm_compute; reflexivity|]. split; [vm_compute; reflexivity|].
    split; [vm_compute; reflexivity|].
    split; [intros [H _]; vm_compute in H; discriminate|].
    split; [intros [H _]; vm_compute in H; discriminate|].
    vm_compute. reflexivity.
Qed.

(** ** Scalar multiplication *)

Lemma ladder_extended (n : nat) (s : Element) (r0 r1 : Point) :
  extended r0 -> extended r1 ->
  extended (fst (Point.ladder n s r0 r1)) /\ extended (snd (Point.ladder n s r0 r1)).
Proof.
  revert r0 r1. induction n as [|n IH]; intros r0 r1 H0 H1; cbn [Point.ladder].
  - cbn [fst snd]. auto.
  - destruct (BigInt.Bit (int s) n =? 0); cbv zeta; apply IH;
      auto using Add_extended, Double_extended.
Qed.

Lemma ladder_coherent (n : nat) (s : Element) (r0 r1 : Point) :
  coherent r0 /\ canonical_point r0 ->
  coherent (fst (Point.ladder n s r0 r1)) /\ canonical_point (fst (Point.ladder n s r0 r1)).
Proof.
  revert r0 r1. induction n as [|n IH]; intros r0 r1 H0; cbn [Point.ladder].
  - exact H0.
  - destruct (BigInt.Bit (int s) n =? 0); cbv zeta; apply IH.
    + split; [apply Double_coherent|]. repeat split; apply canonical_Multiply.
    + split; [apply Add_coherent|]. repeat split; apply canonical_Multiply.
Qed.

Lemma pZero_coherent_canonical : coherent Point.pZero /\ canonical_point Point.pZero.
Proof. split; [reflexivity|]. repeat split; discriminate || reflexivity. Qed.

Lemma ScalarMult_cases (s : Element) (q : Point) :
  (orderPrime <= int s /\ Point.ScalarMult s q = Panic "scalar out of order") \/
  (int s < orderPrime /\
   Point.ScalarMult s q =
     Ok (Point.Set_ (fst (Point.ladder (BigInt.BitLen (int s)) s Point.pZero (Point.Copy q))))).
Proof.
  unfold Point.ScalarMult, BigInt.Cmp. change (int groupOrder) with orderPrime.
  destruct (Z.compare_spec orderPrime (int s)) as [H|H|H]; cbn [Z.leb Z.compare].
  - left. split; [lia | reflexivity].
  - left. split; [lia | reflexivity].
  - right. split; [lia | reflexivity].
Qed.

(** The range guard of [ScalarMult]: it panics exactly when the scalar is
    at least the group order, and returns a point for every other integer,
    negative ones included. *)
Theorem ScalarMult_guard (s : Element) (q : Point) :
  (Point.ScalarMult s q = Panic "scalar out of order" <-> orderPrime <= int s) /\
  ((exists R, Point.ScalarMult s q = Ok R) <-> int s < orderPrime).
Proof.
  destruct (ScalarMult_cases s q) as [[H E]|[H E]]; rewrite E; split; split;
    try (intros; lia); try discriminate; try reflexivity.
  - intros [R HR]. discriminate.
  - intros _. eauto.
Qed.

(** [ScalarMult(0, Q)] is the neutral element (0, 1, 0, 1) itself, and
    [ScalarMult(1, Q)] is equal to Q under [IsEqual], for every point Q. *)
Theorem ScalarMult_zero_one (q : Point) :
  Point.ScalarMult zero q = Ok Point.pZero /\
  exists R, Point.ScalarMult one q = Ok R /\ Point.IsEqual R q = Ok 1.
Proof.
  split; [reflexivity|].
  exists (Point.Set_ (Point.Add Point.pZero (Point.Copy q))). split; [reflexivity|].
  apply IsEqual_cross_xy.
  unfold cross_xy, Point.Set_, Point.Copy, Point.Add, Point.pZero, Element.SetInt.
  cbn [pX pY pT pZ]. rewrite !int_Set. field_ops. cbn [int]. apply eq_eqp. ring.
Qed.

(** Whatever Q holds, the point [ScalarMult] returns has canonical
    coordinates and [T*Z = X*Y]; when Q satisfies the curve equation in
    extended coordinates, so does the result. *)
Theorem ScalarMult_on_curve (s : Element) (q R : Point) :
  Point.ScalarMult s q = Ok R ->
  coherent R /\ canonical_point R /\ (extended q -> extended R).
Proof.
  intros H. destruct (ScalarMult_cases s q) as [[_ E]|[_ E]]; rewrite E in H; [discriminate|].
  injection H as <-.
  destruct (ladder_coherent (BigInt.BitLen (int s)) s Point.pZero (Point.Copy q)
              pZero_coherent_canonical) as [C K].
  split; [exact C|]. split; [exact K|].
  intros Hq. apply Set_extended.
  apply ladder_extended; [apply pZero_extended | exact Hq].
Qed.

Lemma ScalarMult_on_curve_witness :
  exists R, Point.ScalarMult (mkElement 5) samplePoint = Ok R /\
    coherent R /\ canonical_point R /\ (extended samplePoint -> extended R).
Proof.
  eexists. split; [vm_compute; reflexivity|].
  apply (ScalarMult_on_curve (mkElement 5) samplePoint). vm_compute. reflexivity.
Defined.

(** ** Decode *)

Lemma AbsoluteCT_Multiply (u v : Element) :
  Element.AbsoluteCT (Element.Multiply u v) = Element.Multiply u v.
Proof. apply AbsoluteCT_nonneg. apply (canonical_Multiply u v). Qed.

(** [Decode] fails on the length exactly when the input is not 56 bytes
    long, and on the range exactly when it is 56 bytes long and its
    little-endian value is at least p. *)
Theorem Decode_rejects (input : list byte) (e : DecafElement) :
  (fst (Decaf.Decode input e) = Panic "invalid length" <-> List.length input <> 56%nat) /\
  (fst (Decaf.Decode input e) = Panic "out of order" <->
     List.length input = 56%nat /\ fieldOrder <= BigInt.le_value input).
Proof.
  destruct (SetBytesLittle_value input) as [V _].
  split; split.
  - intros H. apply Decode_panics in H. destruct H as [[_ H]|[[H _]|H]]; trivial; discriminate.
  - intros H. unfold Decaf.Decode.
    destruct (Nat.eqb_spec (List.length input) 56); [contradiction|reflexivity].
  - intros H. pose proof (Decode_panics _ _ _ H) as [[H' _]|[[_ H']|H']]; try discriminate.
    split; [|rewrite <- V; exact H'].
    unfold Decaf.Decode in H.
    destruct (Nat.eqb_spec (List.length input) 56); [trivial|discriminate].
  - intros [Hl Hv]. unfold Decaf.Decode.
    destruct (Nat.eqb_spec (List.length input) 56); [|contradiction]. cbn [negb].
    unfold Element.Compare, BigInt.Cmp. change (int curveOrder) with fieldOrder.
    rewrite V. destruct (Z.compare_spec fieldOrder (BigInt.le_value input)); try reflexivity; lia.
Qed.

Lemma constants_inverse : eqp (int sqrtMinusD * int invSqrtMinusD) 1.
Proof. vm_compute. reflexivity. Qed.

(** The curve equation at [Z = 1] for the coordinates that [Decode]
    computes from [s] and the inverse square root [i]. *)
Lemma decode_curve_algebra (sv iv d c c' : Z) :
  eqp (c * c') 1 ->
  eqp (((sv * sv + 1) * (sv * sv + 1) - 4 * d * (sv * sv))
       * ((sv * sv + 1) * (sv * sv + 1)) * (iv * iv)) 1 ->
  eqp
    (2 * sv * iv * (sv * sv + 1) * c * iv
       * ((sv * sv + 1) * (sv * sv + 1) - 4 * d * (sv * sv)) * c'
     * (2 * sv * iv * (sv * sv + 1) * c * iv
          * ((sv * sv + 1) * (sv * sv + 1) - 4 * d * (sv * sv)) * c') * (1 * 1)
     + (1 - sv * sv) * iv * (sv * sv + 1) * ((1 - sv * sv) * iv * (sv * sv + 1)) * (1 * 1))
    (1 * 1 * (1 * 1)
     + d * (2 * sv * iv * (sv * sv + 1) * c * iv
              * ((sv * sv + 1) * (sv * sv + 1) - 4 * d * (sv * sv)) * c'
            * (2 * sv * iv * (sv * sv + 1) * c * iv
                 * ((sv * sv + 1) * (sv * sv + 1) - 4 * d * (sv * sv)) * c'))
         * ((1 - sv * sv) * iv * (sv * sv + 1) * ((1 - sv * sv) * iv * (sv * sv + 1)))).
Proof.
  intros Hcc HW.
  remember (sv * sv + 1) as u1 eqn:Hu1 in *.
  remember (u1 * u1 - 4 * d * (sv * sv)) as u2 eqn:Hu2 in *.
  apply eqp_shift with
    (c := 4 * (sv * sv) * (iv * iv) * u2 * ((c * c') * (c * c')) * (u2 * (u1 * u1) * (iv * iv))
          + (1 - sv * sv) * (1 - sv * sv) * (iv * iv) * (u1 * u1)
          - 1
          - 4 * d * (sv * sv) * ((c * c') * (c * c'))
            * ((u2 * (u1 * u1) * (iv * iv)) * (u2 * (u1 * u1) * (iv * iv)))
            * ((1 - sv * sv) * (1 - sv * sv)) * (iv * iv)).
  - rewrite Hcc. rewrite HW.
    transitivity (4 * (sv * sv) * (iv * iv) * u2
                  + (1 - sv * sv) * (1 - sv * sv) * (iv * iv) * (u1 * u1)
                  - u2 * (u1 * u1) * (iv * iv)
                  - 4 * d * (sv * sv) * ((1 - sv * sv) * (1 - sv * sv)) * (iv * iv)).
    + rewrite HW. apply eq_eqp. ring.
    + apply eq_eqp. subst u2 u1. ring.
  - subst u2 u1. ring.
Qed.

(** Whenever [Decode] succeeds, the point it leaves in the receiver is
    valid: it lies on the curve, has [Z = 1] and [T = X*Y], and its
    coordinates are canonical. *)
Theorem Decode_valid (input : list byte) (e : DecafElement) :
  fst (Decaf.Decode input e) = Ok tt ->
  valid (p (snd (Decaf.Decode input e))) /\
  canonical_point (p (snd (Decaf.Decode input e))) /\
  pZ (p (snd (Decaf.Decode input e))) = one.
Proof.
  unfold Decaf.Decode.
  destruct (negb (List.length input =? 56)%nat); [discriminate|].
  destruct (negb (Element.Compare curveOrder (Element.SetBytesLittle input) =? 1)); [discriminate|].
  destruct (Element.IsNegative (Element.SetBytesLittle input) =? 1); [discriminate|].
  remember (Element.SetBytesLittle input) as s eqn:Hs. clear Hs.
  cbv zeta.
  match goal with
  | |- context [Element.SqrtRatio one ?v] =>
      destruct (SqrtRatio_code one v canonical_one) as [E _]; rewrite E; clear E
  end.
  cbv beta iota zeta delta [bind_recv lift].
  rewrite !AbsoluteCT_Multiply.
  match goal with |- context [bit ?b] => destruct b eqn:B end; cbn [bit Z.eqb Pos.eqb negb];
    [|discriminate].
  intros _.
  cbv beta iota zeta delta [bind_recv write ret snd fst p set_X set_Y set_T set_Z pX pY pT pZ].
  match type of B with
  | context [Element.Multiply (Element.expPMinus3mod4 ?z) one] =>
      remember (Element.Multiply (Element.expPMinus3mod4 z) one) as i eqn:Hi; clear Hi
  end.
  apply Z.eqb_eq in B.
  assert (HW : eqp ((((int s * int s + 1) * (int s * int s + 1) - 4 * int D * (int s * int s))
                      * ((int s * int s + 1) * (int s * int s + 1))) * (int i * int i)) 1).
  { match type of B with int ?m = _ => transitivity (int m) end.
    - field_ops. cbn [int one Element.SetInt].
      generalize (int s) (int i) (int D). intros sv iv d. apply eq_eqp. ring.
    - rewrite B. reflexivity. }
  pose proof constants_inverse as Hcc.
  split; [|split; [unfold canonical_point; cbn [pX pY pT pZ]; repeat (split; [canon|]); canon | reflexivity]].
  unfold valid, on_curve, Element.Set_, Element.SetInt. cbn [pX pY pT pZ int one].
  split; [|split; [|apply Z.gcd_1_l]].
  2: { rewrite eqp_Multiply. apply eq_eqp. ring. }
  field_ops. cbn [int one two Element.SetInt].
  exact (decode_curve_algebra (int s) (int i) (int D) (int sqrtMinusD) (int invSqrtMinusD) Hcc HW).
Qed.

Lemma Decode_valid_witness :
  fst (Decaf.Decode zeros56 NewGroupElement) = Ok tt /\
  valid (p (snd (Decaf.Decode zeros56 NewGroupElement))) /\
  canonical_point (p (snd (Decaf.Decode zeros56 NewGroupElement))) /\
  pZ (p (snd (Decaf.Decode zeros56 NewGroupElement))) = one.
Proof.
  assert (H : fst (Decaf.Decode zeros56 NewGroupElement) = Ok tt) by (vm_compute; reflexivity).
  split; [exact H | exact (Decode_valid zeros56 NewGroupElement H)].
Defined.

(** [Decode] overwrites the whole point of the receiver: neither its
    outcome nor, when it succeeds, the receiver it leaves depend on what
    the receiver held before. *)
Theorem Decode_ignores_receiver (input : list byte) (e e' : DecafElement) :
  fst (Decaf.Decode input e) = fst (Decaf.Decode input e') /\
  (fst (Decaf.Decode input e) = Ok tt ->
   snd (Decaf.Decode input e) = snd (Decaf.Decode input e')).
Proof.
  unfold Decaf.Decode.
  destruct (negb (List.length input =? 56)%nat); [split; [reflexivity|discriminate]|].
  destruct (negb (Element.Compare curveOrder (Element.SetBytesLittle input) =? 1));
    [split; [reflexivity|discriminate]|].
  destruct (Element.IsNegative (Element.SetBytesLittle input) =? 1);
    [split; [reflexivity|discriminate]|].
  cbv beta zeta delta [bind_recv lift].
  match goal with
  | |- context [Element.SqrtRatio ?a ?b] =>
      destruct (Element.SqrtRatio a b) as [[wasSquare invsqrt]|m]
  end; [|split; [reflexivity|discriminate]].
  destruct (negb (wasSquare =? 1)); [split; [reflexivity|discriminate]|].
  cbv beta iota zeta delta [bind_recv write ret fst snd set_X set_Y set_T set_Z pX pY pT pZ].
  split; reflexivity.
Qed.

Lemma Decode_ignores_receiver_witness :
  fst (Decaf.Decode zeros56 NewGroupElement) = Ok tt /\
  snd (Decaf.Decode zeros56 NewGroupElement) =
    snd (Decaf.Decode zeros56 (mkDecafElement samplePoint)).
Proof.
  assert (H : fst (Decaf.Decode zeros56 NewGroupElement) = Ok tt) by (vm_compute; reflexivity).
  split; [exact H|].
  exact (proj2 (Decode_ignores_receiver zeros56 NewGroupElement (mkDecafElement samplePoint)) H).
Defined.

(** ** Encode and the one-way map *)

(** [Encode] never panics, on any receiver. The string it returns has at
    most 56 bytes and reads back, little-endian, as a value below p; it has
    56 bytes exactly when that value is at least 256^55. *)
Theorem Encode_total (e : DecafElement) :
  exists b,
    Decaf.Encode e = Ok b /\
    (List.length b <= 56)%nat /\
    canonical (Element.SetBytesLittle b) /\
    (List.length b = 56%nat <-> 256 ^ 55 <= int (Element.SetBytesLittle b)).
Proof.
  unfold Decaf.Encode.
  match goal with
  | |- context [Element.SqrtRatio one ?v] =>
      destruct (SqrtRatio_total one v canonical_one) as [w [r E]]; rewrite E; clear E
  end.
  cbn [bind]. rewrite !AbsoluteCT_Multiply.
  match goal with
  | |- context [BigInt.Bytes (int ?m)] => remember m as s eqn:Hs
  end.
  assert (Cs : canonical s) by (subst s; apply canonical_Multiply). clear Hs.
  eexists. split; [reflexivity|].
  assert (V : Element.SetBytesLittle (reverse (BigInt.Bytes (int s))) = s).
  { unfold Element.SetBytesLittle. rewrite !reverse_rev, rev_involutive, Bytes_SetBytes.
    rewrite Z.abs_eq by apply Cs. now destruct s. }
  rewrite V, length_reverse.
  assert (L : (List.length (BigInt.Bytes (int s)) <= 56)%nat).
  { apply Bytes_length. rewrite Z.abs_eq by apply Cs.
    change (256 ^ Z.of_nat 56) with (2 ^ 448). destruct Cs as [_ Cs].
    rewrite fieldOrder_eq in Cs. lia. }
  split; [exact L|]. split; [exact Cs|].
  pose proof (Bytes_length (int s) 55) as B. rewrite Z.abs_eq in B by apply Cs.
  change (Z.of_nat 55) with 55 in B. lia.
Qed.

Lemma canonical_oneMinusTwoD : canonical oneMinusTwoD.
Proof. split; [discriminate | reflexivity]. Qed.

Lemma map_locals_total (input : list byte) :
  exists l, Decaf._map_locals input = Ok l.
Proof.
  unfold Decaf._map_locals. cbv zeta.
  match goal with
  | |- context [Element.SqrtRatio oneMinusTwoD ?v] =>
      destruct (SqrtRatio_total oneMinusTwoD v canonical_oneMinusTwoD) as [w [r E]];
      rewrite E; clear E
  end.
  cbn [bind]. eauto.
Qed.

Lemma map_total (input : list byte) :
  exists q, Decaf._map input = Ok q /\ canonical_point q /\ coherent q.
Proof.
  unfold Decaf._map. destruct (map_locals_total input) as [l E]. rewrite E. cbn [bind].
  eexists. split; [reflexivity|]. split.
  - repeat split; apply canonical_Multiply.
  - unfold coherent. cbn [pX pY pT pZ]. rewrite !eqp_Multiply.
    generalize (int (Decaf.m_w0 l)) (int (Decaf.m_w1 l)) (int (Decaf.m_w2 l)) (int (Decaf.m_w3 l)).
    intros. apply eq_eqp. ring.
Qed.

Lemma reduce_eq (x y : Z) :
  eqp x y -> Element.reduce x (int curveOrder) = Element.reduce y (int curveOrder).
Proof. intros H. apply Element_ext. rewrite !int_reduce. exact H. Qed.

(** [_map] never panics, whatever the length of its input. The point it
    returns has canonical coordinates and [T*Z = X*Y], and depends on the
    input only through its big-endian value modulo p. *)
Theorem map_reduces_input (a b : list byte) :
  (exists q, Decaf._map a = Ok q /\ canonical_point q /\ coherent q) /\
  (eqp (BigInt.SetBytes a) (BigInt.SetBytes b) -> Decaf._map a = Decaf._map b).
Proof.
  split; [apply map_total|].
  intros H. unfold Decaf._map, Decaf._map_locals, Element.SetBytesBig. cbn [int].
  now rewrite (reduce_eq _ _ H).
Qed.

Lemma map_reduces_input_witness :
  eqp (BigInt.SetBytes [x02]) (BigInt.SetBytes [x00; x00; x02]) /\
  Decaf._map [x02] = Decaf._map [x00; x00; x02].
Proof.
  assert (H : eqp (BigInt.SetBytes [x02]) (BigInt.SetBytes [x00; x00; x02])) by reflexivity.
  split; [exact H | exact (proj2 (map_reduces_input [x02] [x00; x00; x02]) H)].
Defined.

Lemma OneWayMap_cases (e : DecafElement) (input : list byte) :
  ((List.length input < 112)%nat /\
   Decaf.OneWayMap e input = Panic "slice bounds out of range") \/
  ((112 <= List.length input)%nat /\
   exists p1 p2,
     Decaf._map (firstn 56 (reverse input)) = Ok p1 /\
     Decaf._map (firstn 56 (skipn 56 (reverse input))) = Ok p2 /\
     Decaf.OneWayMap e input = Ok (mkDecafElement (Point.Set_ (Point.Add p1 p2)))).
Proof.
  unfold Decaf.OneWayMap. cbv zeta. rewrite length_reverse.
  destruct (Nat.ltb_spec (List.length input) 56) as [H|H].
  - left. split; [lia | reflexivity].
  - destruct (map_total (firstn 56 (reverse input))) as [p1 [E1 _]]. rewrite E1. cbn [bind].
    destruct (Nat.ltb_spec (List.length input) 112) as [H'|H'].
    + left. split; [lia | reflexivity].
    + destruct (map_total (firstn 56 (skipn 56 (reverse input)))) as [p2 [E2 _]].
      rewrite E2. cbn [bind]. right. split; [lia|]. exists p1, p2. auto.
Qed.

(** [OneWayMap] panics on the slice bounds exactly when the input is
    shorter than 112 bytes. *)
Theorem OneWayMap_short (e : DecafElement) (input : list byte) :
  Decaf.OneWayMap e input = Panic "slice bounds out of range" <->
  (List.length input < 112)%nat.
Proof.
  destruct (OneWayMap_cases e input) as [[H E]|[H (p1 & p2 & _ & _ & E)]]; rewrite E.
  - split; trivial.
  - split; [discriminate | lia].
Qed.

(** On an input of at least 112 bytes [OneWayMap] returns; the point has
    canonical coordinates and [T*Z = X*Y], and neither the receiver nor the
    bytes before the last 112 have any influence on it. *)
Theorem OneWayMap_total (e e' : DecafElement) (pre input : list byte) :
  List.length input = 112%nat ->
  exists R,
    Decaf.OneWayMap e (pre ++ input) = Ok R /\
    Decaf.OneWayMap e' input = Ok R /\
    canonical_point (p R) /\ coherent (p R).
Proof.
  intros Hl.
  assert (F1 : firstn 56 (reverse (pre ++ input)) = firstn 56 (reverse input)).
  { rewrite !reverse_rev, rev_app_distr, firstn_app, length_rev, Hl.
    change (56 - 112)%nat with 0%nat. rewrite firstn_O. apply app_nil_r. }
  assert (F2 : firstn 56 (skipn 56 (reverse (pre ++ input)))
               = firstn 56 (skipn 56 (reverse input))).
  { rewrite !reverse_rev, rev_app_distr, skipn_app, length_rev, Hl.
    change (56 - 112)%nat with 0%nat. rewrite skipn_O.
    rewrite firstn_app, length_skipn, length_rev, Hl.
    change (56 - (112 - 56))%nat with 0%nat. rewrite firstn_O. apply app_nil_r. }
  destruct (OneWayMap_cases e (pre ++ input)) as [[H _]|[_ (p1 & p2 & E1 & E2 & E)]].
  { rewrite length_app in H. lia. }
  destruct (OneWayMap_cases e' input) as [[H _]|[_ (q1 & q2 & G1 & G2 & G)]]; [lia|].
  rewrite F1 in E1. rewrite F2 in E2.
  assert (p1 = q1) by congruence. assert (p2 = q2) by congruence. subst q1 q2.
  eexists. split; [exact E|]. split; [exact G|]. cbn [p].
  split; [|apply Add_coherent].
  repeat split; apply canonical_Multiply.
Qed.

Lemma OneWayMap_total_witness :
  List.length (repeat x00 112) = 112%nat /\
  exists R,
    Decaf.OneWayMap NewGroupElement ([xff; x01] ++ repeat x00 112) = Ok R /\
    Decaf.OneWayMap (mkDecafElement samplePoint) (repeat x00 112) = Ok R /\
    canonical_point (p R) /\ coherent (p R).
Proof.
  split; [reflexivity|].
  exact (OneWayMap_total NewGroupElement (mkDecafElement samplePoint) [xff; x01]
           (repeat x00 112) eq_refl).
Defined.

(** ** The constants *)

(** The constants agree with one another: the primes have the values
    their comments give, [D = -39081], [oneMinusD = 1 - D],
    [oneMinusTwoD = 1 - 2 D], [sqrtMinusD^2 = -D],
    [sqrtMinusD * invSqrtMinusD = 1], [pMinus3Div4 = (p - 3) / 4] exactly,
    [minusOne = p - 1], and the group order is below p. *)
Theorem constants_consistent :
  fieldOrder = 2 ^ 448 - 2 ^ 224 - 1 /\
  orderPrime = 2 ^ 446 - 13818066809895115352007386748515426880336692474882178609894547503885 /\
  int D = fieldOrder - 39081 /\
  int oneMinusD = (1 - int D) mod fieldOrder /\
  int oneMinusTwoD = (1 - 2 * int D) mod fieldOrder /\
  eqp (int sqrtMinusD * int sqrtMinusD) (- int D) /\
  eqp (int sqrtMinusD * int invSqrtMinusD) 1 /\
  4 * int pMinus3Div4 + 3 = fieldOrder /\
  int minusOne = fieldOrder - 1 /\
  canonical sqrtMinusD /\ canonical invSqrtMinusD /\ canonical D /\
  canonical groupOrder.
Proof. vm_compute. repeat split; reflexivity || discriminate. Qed.
